(** * t1k-go: the connection pool of [server.go]

    A shallow embedding of the [Server] type of package [t1k] and of its
    methods, followed by the properties of the pool that the design
    document states.

    Every method runs to completion on one goroutine.  A channel
    operation that cannot proceed while no other goroutine runs parks the
    caller for good; a run-time panic aborts the call.  Both are results
    of the model, next to the normal return. *)

From Stdlib Require Import ZArith List String Ascii Bool Lia.
From stdpp Require Import base list.
Import ListNotations.

Set Default Proof Using "Type".

(** ** Machine integers *)

(** [int64] arithmetic of Go wraps around in two's complement. *)
Definition wrap64 (z : Z) : Z := ((z + 2 ^ 63) mod 2 ^ 64 - 2 ^ 63)%Z.

Definition int64_range (z : Z) : Prop := (- 2 ^ 63 <= z < 2 ^ 63)%Z.

(** ** Data *)

(** Go [error] values.  [ErrorWrap] is [misc.ErrorWrap]. *)
Inductive error : Type :=
| Errno (code : nat)
| ErrorWrap (err : error) (msg : string).

(** A [net.Conn] is an opaque transport handle. *)
Definition netConn : Type := nat.

(** A [*conn]: the address of a pooled connection in [heap]. *)
Definition ptr : Type := nat.

(** The pooled connection: its transport and the [failing] flag (the
    back-reference to the one [Server] is implicit). *)
Record conn : Type := Conn { socket : netConn; failing : bool }.

(** What the caller hands to a detection exchange (a detection context,
    an HTTP request or a generic request), and what comes back. *)
Definition Payload : Type := nat.
Definition Result : Type := nat.

Record Reply : Type := mkReply {
  replyReq : option Result;
  replyRsp : option Result;
  replyErr : option error
}.

(** What the process cannot control: the remote peer's answer to the
    k-th transport exchange, to the k-th heartbeat ping, and the
    environment variables of the process. *)
Record Ambient : Type := mkAmbient {
  remote : nat -> Payload -> Reply;
  pong : nat -> option error;
  environ : string -> option string
}.

(** The [Server] struct with the store its pointers live in and the log
    of its effects on the outside.

    - [socketFactory k] is what the stored factory closure returns at the
      k-th call made to it ([dials] counts the calls);
    - [SocketErrorHook] tells whether a hook is installed; the errors it
      was called with are kept in [hookLog];
    - [poolCh] is the buffer of the channel, oldest first, and [poolCap]
      its capacity;
    - [closeCh] is [true] once the channel has been closed;
    - [healthCheck] is [true] once the Health-Check Service has been
      closed. *)
Record Server : Type := mkServer {
  socketFactory : nat -> netConn + error;
  SocketErrorHook : bool;
  poolCh : list ptr;
  poolCap : Z;
  poolSize : Z;
  count : Z;
  closeCh : bool;
  healthCheck : bool;
  heap : list conn;
  dials : nat;
  hookLog : list error;
  ios : nat;
  closedSocks : list netConn;
  getenvs : nat;
  timers : list Z;
  amb : Ambient
}.

Definition set_socketFactory (f : nat -> netConn + error) (s : Server) : Server :=
  mkServer f (SocketErrorHook s) (poolCh s) (poolCap s) (poolSize s) (count s)
    (closeCh s) (healthCheck s) (heap s) (dials s) (hookLog s) (ios s)
    (closedSocks s) (getenvs s) (timers s) (amb s).

Definition set_SocketErrorHook (h : bool) (s : Server) : Server :=
  mkServer (socketFactory s) h (poolCh s) (poolCap s) (poolSize s) (count s)
    (closeCh s) (healthCheck s) (heap s) (dials s) (hookLog s) (ios s)
    (closedSocks s) (getenvs s) (timers s) (amb s).

Definition set_poolCh (q : list ptr) (s : Server) : Server :=
  mkServer (socketFactory s) (SocketErrorHook s) q (poolCap s) (poolSize s) (count s)
    (closeCh s) (healthCheck s) (heap s) (dials s) (hookLog s) (ios s)
    (closedSocks s) (getenvs s) (timers s) (amb s).

Definition set_count (n : Z) (s : Server) : Server :=
  mkServer (socketFactory s) (SocketErrorHook s) (poolCh s) (poolCap s) (poolSize s) n
    (closeCh s) (healthCheck s) (heap s) (dials s) (hookLog s) (ios s)
    (closedSocks s) (getenvs s) (timers s) (amb s).

Definition set_closeCh (b : bool) (s : Server) : Server :=
  mkServer (socketFactory s) (SocketErrorHook s) (poolCh s) (poolCap s) (poolSize s) (count s)
    b (healthCheck s) (heap s) (dials s) (hookLog s) (ios s)
    (closedSocks s) (getenvs s) (timers s) (amb s).

Definition set_healthCheck (b : bool) (s : Server) : Server :=
  mkServer (socketFactory s) (SocketErrorHook s) (poolCh s) (poolCap s) (poolSize s) (count s)
    (closeCh s) b (heap s) (dials s) (hookLog s) (ios s)
    (closedSocks s) (getenvs s) (timers s) (amb s).

Definition set_heap (h : list conn) (s : Server) : Server :=
  mkServer (socketFactory s) (SocketErrorHook s) (poolCh s) (poolCap s) (poolSize s) (count s)
    (closeCh s) (healthCheck s) h (dials s) (hookLog s) (ios s)
    (closedSocks s) (getenvs s) (timers s) (amb s).

Definition set_dials (n : nat) (s : Server) : Server :=
  mkServer (socketFactory s) (SocketErrorHook s) (poolCh s) (poolCap s) (poolSize s) (count s)
    (closeCh s) (healthCheck s) (heap s) n (hookLog s) (ios s)
    (closedSocks s) (getenvs s) (timers s) (amb s).

Definition set_hookLog (l : list error) (s : Server) : Server :=
  mkServer (socketFactory s) (SocketErrorHook s) (poolCh s) (poolCap s) (poolSize s) (count s)
    (closeCh s) (healthCheck s) (heap s) (dials s) l (ios s)
    (closedSocks s) (getenvs s) (timers s) (amb s).

Definition set_ios (n : nat) (s : Server) : Server :=
  mkServer (socketFactory s) (SocketErrorHook s) (poolCh s) (poolCap s) (poolSize s) (count s)
    (closeCh s) (healthCheck s) (heap s) (dials s) (hookLog s) n
    (closedSocks s) (getenvs s) (timers s) (amb s).

Definition set_closedSocks (l : list netConn) (s : Server) : Server :=
  mkServer (socketFactory s) (SocketErrorHook s) (poolCh s) (poolCap s) (poolSize s) (count s)
    (closeCh s) (healthCheck s) (heap s) (dials s) (hookLog s) (ios s)
    l (getenvs s) (timers s) (amb s).

Definition set_getenvs (n : nat) (s : Server) : Server :=
  mkServer (socketFactory s) (SocketErrorHook s) (poolCh s) (poolCap s) (poolSize s) (count s)
    (closeCh s) (healthCheck s) (heap s) (dials s) (hookLog s) (ios s)
    (closedSocks s) n (timers s) (amb s).

Definition set_timers (l : list Z) (s : Server) : Server :=
  mkServer (socketFactory s) (SocketErrorHook s) (poolCh s) (poolCap s) (poolSize s) (count s)
    (closeCh s) (healthCheck s) (heap s) (dials s) (hookLog s) (ios s)
    (closedSocks s) (getenvs s) l (amb s).

(** ** Results of a call *)

Inductive outcome (A : Type) : Type :=
| Done (a : A) (s : Server)   (* the call returned [a] *)
| Parked (s : Server)         (* blocked on a channel with nobody to wake it *)
| Panicked (s : Server)       (* run-time panic *)
| OutOfFuel (s : Server).     (* the loop was still running when the fuel ran out *)

Arguments Done {A} a s.
Arguments Parked {A} s.
Arguments Panicked {A} s.
Arguments OutOfFuel {A} s.

Definition bind {A B : Type} (m : outcome A) (k : A -> Server -> outcome B) : outcome B :=
  match m with
  | Done a s => k a s
  | Parked s => Parked s
  | Panicked s => Panicked s
  | OutOfFuel s => OutOfFuel s
  end.

(** The state a call leaves behind, however it ended. *)
Definition final {A : Type} (m : outcome A) : Server :=
  match m with
  | Done _ s | Parked s | Panicked s | OutOfFuel s => s
  end.

Notation "'call' ( x , s1 ) <- m ; k" := (bind m (fun x s1 => k))
  (at level 10, x name, s1 name, m at level 100, k at level 200).

(** ** The channel [poolCh] *)

(** [s.poolCh <- c] *)
Definition chanSend (c : ptr) (s : Server) : outcome unit :=
  if (Z.of_nat (length (poolCh s)) <? poolCap s)%Z
  then Done tt (set_poolCh (poolCh s ++ [c]) s)
  else Parked s.

(** [<-s.poolCh] *)
Definition chanRecv (s : Server) : outcome ptr :=
  match poolCh s with
  | [] => Parked s
  | c :: q => Done c (set_poolCh q s)
  end.

(** ** Connection creation *)

Definition UpdateSockErrorHandler (installed : bool) (s : Server) : Server :=
  set_SocketErrorHook installed s.

Definition UpdateSockFactory (f : nat -> netConn + error) (s : Server) : Server :=
  set_socketFactory f s.

Definition callSockFactory (s : Server) : (netConn + error) * Server :=
  let r := socketFactory s (dials s) in
  let s1 := set_dials (S (dials s)) s in
  match r with
  | inr err =>
      if SocketErrorHook s1
      then (r, set_hookLog (hookLog s1 ++ [err]) s1)
      else (r, s1)
  | inl _ => (r, s1)
  end.

(** The read lock of [CallSockFactory] has no effect on one goroutine. *)
Definition CallSockFactory (s : Server) : (netConn + error) * Server :=
  callSockFactory s.

(** Modelled from the spec: [makeConn] of conn.go, which is not among the
    sources.  A pooled connection is created around the transport, not
    marked failing. *)
Definition makeConn (sock : netConn) (s : Server) : ptr * Server :=
  (length (heap s), set_heap (heap s ++ [Conn sock false]) s).

Definition newConn (s : Server) : outcome (option error) :=
  match CallSockFactory s with
  | (inr err, s1) => Done (Some err) s1
  | (inl sock, s1) =>
      let s2 := set_count (wrap64 (count s1 + 1)) s1 in
      let (c, s3) := makeConn sock s2 in
      call (_, s4) <- chanSend c s3; Done None s4
  end.

(** The loop of [GetConn], entered with [i] and the error so far [nil]:
    [for ; i < (s.poolSize - s.count); i++ { err = s.newConn(); if err != nil { break } }].
    The bound is evaluated again before every iteration. *)
Fixpoint growLoop (fuel : nat) (i : Z) (s : Server) : outcome (option error) :=
  if (i <? wrap64 (poolSize s - count s))%Z then
    match fuel with
    | O => OutOfFuel s
    | S fuel' =>
        call (err, s1) <- newConn s;
        match err with
        | Some e => Done (Some e) s1
        | None => growLoop fuel' (wrap64 (i + 1)) s1
        end
    end
  else Done None s.

(** Lines 80 to 94 of [GetConn]: the check of the count, the same check
    again under [cntlock], and the loop.  The loop makes at most
    [poolSize - count] iterations, which is the fuel it gets. *)
Definition grow (s : Server) : outcome (option error) :=
  if (count s <? poolSize s)%Z then
    if (count s <? poolSize s)%Z then
      growLoop (Z.to_nat (poolSize s - count s)) 0 s
    else Done None s
  else Done None s.

(** Modelled from the spec: [tryReconnIfFailed] of conn.go, which is not
    among the sources.  The repair calls the socket factory of the pool
    for a fresh transport, replaces the held transport and clears the
    failing flag; when the factory fails the connection stays failing and
    the error is returned. *)
Definition tryReconnIfFailed (c : ptr) (s : Server) : outcome (option error) :=
  match heap s !! c with
  | None => Panicked s
  | Some _ =>
      match CallSockFactory s with
      | (inr err, s1) => Done (Some err) s1
      | (inl sock, s1) => Done None (set_heap (<[c := Conn sock false]> (heap s1)) s1)
      end
  end.

(** Lines 96 to 105 of [GetConn]. *)
Definition takeConn (s : Server) : outcome (ptr + error) :=
  call (c, s1) <- chanRecv s;
  match heap s1 !! c with
  | None => Panicked s1
  | Some k =>
      if failing k then
        call (err, s2) <- tryReconnIfFailed c s1;
        match err with
        | Some e => call (_, s3) <- chanSend c s2; Done (inr e) s3
        | None => Done (inl c) s2
        end
      else Done (inl c) s1
  end.

Definition GetConn (s : Server) : outcome (ptr + error) :=
  call (err, s1) <- grow s;
  match err with
  | Some e => Done (inr e) s1
  | None => takeConn s1
  end.

Definition PutConn (c : ptr) (s : Server) : outcome unit := chanSend c s.

(** ** The pooled connection *)

(** Modelled from the spec: the exchange methods of conn.go, which is not
    among the sources.  The exchange is delegated to the transport; a
    transport error during it moves the connection from healthy to
    failing. *)
Definition conn_exchange (c : ptr) (p : Payload) (s : Server) : outcome Reply :=
  match heap s !! c with
  | None => Panicked s
  | Some k =>
      let r := remote (amb s) (ios s) p in
      let s1 := set_ios (S (ios s)) s in
      match replyErr r with
      | Some _ => Done r (set_heap (<[c := Conn (socket k) true]> (heap s1)) s1)
      | None => Done r s1
      end
  end.

Definition conn_DetectRequestInCtx (c : ptr) (dc : Payload) (s : Server)
  : outcome (option Result * option error) :=
  call (r, s1) <- conn_exchange c dc s; Done (replyReq r, replyErr r) s1.

Definition conn_DetectResponseInCtx (c : ptr) (dc : Payload) (s : Server)
  : outcome (option Result * option error) :=
  call (r, s1) <- conn_exchange c dc s; Done (replyRsp r, replyErr r) s1.

Definition conn_DetectHttpRequest (c : ptr) (req : Payload) (s : Server)
  : outcome (option Result * option error) :=
  call (r, s1) <- conn_exchange c req s; Done (replyReq r, replyErr r) s1.

Definition conn_DetectRequest (c : ptr) (req : Payload) (s : Server)
  : outcome (option Result * option error) :=
  call (r, s1) <- conn_exchange c req s; Done (replyReq r, replyErr r) s1.

Definition conn_Detect (c : ptr) (dc : Payload) (s : Server)
  : outcome (option Result * option Result * option error) :=
  call (r, s1) <- conn_exchange c dc s; Done (replyReq r, replyRsp r, replyErr r) s1.

(** Modelled from the spec: [Heartbeat] of conn.go, which is not among
    the sources.  A failed ping marks the connection failing. *)
Definition conn_Heartbeat (c : ptr) (s : Server) : outcome unit :=
  match heap s !! c with
  | None => Panicked s
  | Some k =>
      let r := pong (amb s) (ios s) in
      let s1 := set_ios (S (ios s)) s in
      match r with
      | Some _ => Done tt (set_heap (<[c := Conn (socket k) true]> (heap s1)) s1)
      | None => Done tt s1
      end
  end.

(** Modelled from the spec: [Close] of conn.go, which is not among the
    sources.  Closing a pooled connection closes its transport. *)
Definition conn_Close (c : ptr) (s : Server) : outcome unit :=
  match heap s !! c with
  | None => Panicked s
  | Some k => Done tt (set_closedSocks (closedSocks s ++ [socket k]) s)
  end.

(** Modelled from the spec: [Close] of the Health-Check Service, which is
    not among the sources.  It stops the service and may be repeated. *)
Definition HealthCheckService_Close (s : Server) : Server := set_healthCheck true s.

(** ** The heartbeat *)

(** The loop of [broadcastHeartbeat].  The [default] case of the select
    is taken when the buffer is empty. *)
Fixpoint broadcastHeartbeat (fuel : nat) (s : Server) : outcome unit :=
  match poolCh s with
  | [] => Done tt s
  | c :: q =>
      match fuel with
      | O => OutOfFuel s
      | S fuel' =>
          let s1 := set_poolCh q s in
          match heap s1 !! c with
          | None => Panicked s1
          | Some k =>
              call (_, s2) <- (if negb (failing k) then conn_Heartbeat c s1 else Done tt s1);
              call (_, s3) <- PutConn c s2;
              broadcastHeartbeat fuel' s3
          end
      end
  end.

Definition DEFAULT_POOL_SIZE : Z := 8.
Definition HEARTBEAT_INTERVAL : Z := 20.

(** [os.Getenv]: the value of the variable, empty when it is not set. *)
Definition Getenv (name : string) (s : Server) : string * Server :=
  (match environ (amb s) name with Some v => v | None => EmptyString end,
   set_getenvs (S (getenvs s)) s).

Definition digitOf (ch : ascii) : option Z :=
  let n := nat_of_ascii ch in
  if (48 <=? n)%nat && (n <=? 57)%nat then Some (Z.of_nat (n - 48)) else None.

Fixpoint parseDigits (acc : Z) (s : string) : option Z :=
  match s with
  | EmptyString => Some acc
  | String ch rest =>
      match digitOf ch with
      | Some d => parseDigits (acc * 10 + d) rest
      | None => None
      end
  end.

(** [strconv.Atoi] on a 64-bit platform: an optional sign and one or more
    decimal digits, with a value that fits [int]; everything else is an
    error. *)
Definition Atoi (s : string) : option Z :=
  match s with
  | EmptyString => None
  | String ch rest =>
      let neg := Ascii.eqb ch "-" in
      let body := if neg || Ascii.eqb ch "+" then rest else s in
      match body with
      | EmptyString => None
      | String _ _ =>
          match parseDigits 0 body with
          | Some n =>
              let v := (if neg then - n else n)%Z in
              if (- 2 ^ 63 <=? v)%Z && (v <? 2 ^ 63)%Z then Some v else None
          | None => None
          end
      end
  end.

(** Lines 127 to 134 of [runHeartbeatCo]. *)
Definition heartbeatInterval (s : Server) : Z * Server :=
  let interval := HEARTBEAT_INTERVAL in
  let (intervalRaw, s1) := Getenv "T1K_HEARTBEAT_INTERVAL" s in
  if negb (String.eqb intervalRaw EmptyString) then
    match Atoi intervalRaw with
    | Some val => (val, s1)
    | None => (interval, s1)
    end
  else (interval, s1).

(** [time.NewTimer(time.Duration(interval) * time.Second)]: the duration
    is an [int64] count of nanoseconds. *)
Definition NewTimer (interval : Z) (s : Server) : Server :=
  set_timers (timers s ++ [wrap64 (interval * 1000000000)]) s.

(** Which case the select of the loop takes when it wakes up. *)
Inductive wake : Type :=
| CloseSeen      (* [<-s.closeCh] *)
| TimerFired.    (* [<-timer.C] *)

(** The loop of [runHeartbeatCo], one wake-up per iteration; every sweep
    gets [fuel]. *)
Fixpoint heartbeatLoop (interval : Z) (fuel : nat) (wakes : list wake) (s : Server)
  : outcome unit :=
  let s1 := NewTimer interval s in
  match wakes with
  | [] => Parked s1
  | CloseSeen :: _ => Done tt s1
  | TimerFired :: rest =>
      call (_, s2) <- broadcastHeartbeat fuel s1;
      heartbeatLoop interval fuel rest s2
  end.

Definition runHeartbeatCo (fuel : nat) (wakes : list wake) (s : Server) : outcome unit :=
  let (interval, s1) := heartbeatInterval s in
  heartbeatLoop interval fuel wakes s1.

(** ** Construction *)

Inductive construction : Type :=
| Built (s : Server)
| Failed (err : error)
| Crashed.

(** [hc] is what [NewHealthCheckService] returns; [make] panics on a
    negative buffer size.  The two background loops are started by the
    caller of the model. *)
Definition NewFromSocketFactoryWithPoolSize
  (factory : nat -> netConn + error) (size : Z) (hc : option error) (a : Ambient)
  : construction :=
  if (size <? 0)%Z then Crashed
  else
    match hc with
    | Some err => Failed err
    | None =>
        Built (mkServer factory false [] size (wrap64 size) 0 false false
                 [] 0 [] 0 [] 0 [] a)
    end.

Definition NewFromSocketFactory (factory : nat -> netConn + error)
  (hc : option error) (a : Ambient) : construction :=
  NewFromSocketFactoryWithPoolSize factory DEFAULT_POOL_SIZE hc a.

(** ** The detection calls *)

(** [defer d()]: the deferred call runs when the function returns and
    when it panics. *)
Definition deferred {A : Type} (d : Server -> outcome unit) (m : outcome A) : outcome A :=
  match m with
  | Done a s => call (_, s1) <- d s; Done a s1
  | Panicked s => call (_, s1) <- d s; Panicked s1
  | Parked s => Parked s
  | OutOfFuel s => OutOfFuel s
  end.

Definition DetectRequestInCtx (dc : Payload) (s : Server)
  : outcome (option Result * option error) :=
  call (r, s1) <- GetConn s;
  match r with
  | inr err => Done (None, Some err) s1
  | inl c => deferred (PutConn c) (conn_DetectRequestInCtx c dc s1)
  end.

Definition DetectResponseInCtx (dc : Payload) (s : Server)
  : outcome (option Result * option error) :=
  call (r, s1) <- GetConn s;
  match r with
  | inr err => Done (None, Some (ErrorWrap err EmptyString)) s1
  | inl c => deferred (PutConn c) (conn_DetectResponseInCtx c dc s1)
  end.

Definition Detect (dc : Payload) (s : Server)
  : outcome (option Result * option Result * option error) :=
  call (r, s1) <- GetConn s;
  match r with
  | inr err => Done (None, None, Some (ErrorWrap err EmptyString)) s1
  | inl c =>
      call (ret, s2) <- conn_Detect c dc s1;
      match snd ret with
      | None => call (_, s3) <- PutConn c s2; Done ret s3
      | Some _ => Done ret s2
      end
  end.

Definition DetectHttpRequest (req : Payload) (s : Server)
  : outcome (option Result * option error) :=
  call (r, s1) <- GetConn s;
  match r with
  | inr err => Done (None, Some err) s1
  | inl c => deferred (PutConn c) (conn_DetectHttpRequest c req s1)
  end.

Definition DetectRequest (req : Payload) (s : Server)
  : outcome (option Result * option error) :=
  call (r, s1) <- GetConn s;
  match r with
  | inr err => Done (None, Some err) s1
  | inl c => deferred (PutConn c) (conn_DetectRequest c req s1)
  end.

(** ** Shutdown *)

(** The loop of [Close], entered with [i]:
    [for ; i < s.count; i++ { c, err := s.GetConn(); if err != nil { return }; c.Close() }]
    followed by [s.healthCheck.Close()]. *)
Fixpoint closeLoop (fuel : nat) (i : Z) (s : Server) : outcome unit :=
  if (i <? count s)%Z then
    match fuel with
    | O => OutOfFuel s
    | S fuel' =>
        call (r, s1) <- GetConn s;
        match r with
        | inr _ => Done tt s1
        | inl c =>
            call (_, s2) <- conn_Close c s1;
            closeLoop fuel' (wrap64 (i + 1)) s2
        end
    end
  else Done tt (HealthCheckService_Close s).

(** [close] panics on a channel that is closed already.  The count never
    passes the pool size, so the loop makes at most that many
    iterations. *)
Definition Close (s : Server) : outcome unit :=
  if closeCh s then Panicked s
  else
    let s1 := set_closeCh true s in
    closeLoop (Z.to_nat (Z.max (poolSize s1) (count s1))) 0 s1.

(** ** Histories *)

Inductive op : Type :=
| OpGetConn
| OpPutConn (c : ptr)
| OpUse (c : ptr) (p : Payload)
| OpDetectRequestInCtx (dc : Payload)
| OpDetectResponseInCtx (dc : Payload)
| OpDetect (dc : Payload)
| OpDetectHttpRequest (req : Payload)
| OpDetectRequest (req : Payload)
| OpSweep (fuel : nat)
| OpClose
| OpUpdateSockFactory (f : nat -> netConn + error)
| OpUpdateSockErrorHandler (installed : bool).

(** The state after one operation, however it ended: a parked or
    endlessly sweeping goroutine leaves the state to the others. *)
Definition exec (o : op) (s : Server) : Server :=
  match o with
  | OpGetConn => final (GetConn s)
  | OpPutConn c => final (PutConn c s)
  | OpUse c p => final (conn_exchange c p s)
  | OpDetectRequestInCtx dc => final (DetectRequestInCtx dc s)
  | OpDetectResponseInCtx dc => final (DetectResponseInCtx dc s)
  | OpDetect dc => final (Detect dc s)
  | OpDetectHttpRequest req => final (DetectHttpRequest req s)
  | OpDetectRequest req => final (DetectRequest req s)
  | OpSweep fuel => final (broadcastHeartbeat fuel s)
  | OpClose => final (Close s)
  | OpUpdateSockFactory f => UpdateSockFactory f s
  | OpUpdateSockErrorHandler h => UpdateSockErrorHandler h s
  end.

Definition run (ops : list op) (s : Server) : Server :=
  fold_left (fun s o => exec o s) ops s.

(** ** The invariant of the pool and what every call respects *)

Record inv (s : Server) : Prop := mkInv {
  inv_count_lo : (0 <= count s)%Z;
  inv_count_hi : (count s <= poolSize s)%Z;
  inv_size : (poolSize s < 2 ^ 63)%Z;
  inv_heap : count s = Z.of_nat (length (heap s));
  inv_chan : (Z.of_nat (length (poolCh s)) <= poolCap s)%Z
}.

Record evolves (s s' : Server) : Prop := mkEvolves {
  ev_size : poolSize s' = poolSize s;
  ev_cap : poolCap s' = poolCap s;
  ev_amb : amb s' = amb s;
  ev_inv : inv s -> inv s';
  ev_count : inv s -> (count s <= count s')%Z;
  ev_dials : dials s <= dials s';
  ev_heap : length (heap s) <= length (heap s')
}.

(** ** Sample pools *)

(** A peer that answers every exchange and every ping, in a process
    without environment variables. *)
Definition quiet : Ambient :=
  mkAmbient (fun _ _ => mkReply (Some 0) (Some 0) None) (fun _ => None) (fun _ => None).

(** A peer whose exchanges all fail. *)
Definition deaf : Ambient :=
  mkAmbient (fun _ _ => mkReply None None (Some (Errno 7))) (fun _ => Some (Errno 7))
    (fun _ => None).

(** Socket factories: one that always connects, one that connects once
    and fails from then on, one that connects twice, one that never
    connects. *)
Definition dialAlways : nat -> netConn + error := fun k => inl k.

Definition dialOnce : nat -> netConn + error :=
  fun k => match k with O => inl 0 | S _ => inr (Errno 1) end.

Definition dialTwice : nat -> netConn + error :=
  fun k => match k with O => inl 0 | 1 => inl 1 | _ => inr (Errno 1) end.

Definition dialNever : nat -> netConn + error := fun _ => inr (Errno 1).

(** The pool that [NewFromSocketFactoryWithPoolSize] builds. *)
Definition fresh (f : nat -> netConn + error) (size : Z) (a : Ambient) : Server :=
  match NewFromSocketFactoryWithPoolSize f size None a with
  | Built s => s
  | _ => mkServer f false [] 0 0 0 false false [] 0 [] 0 [] 0 [] a
  end.


(** A history that acquires, releases, detects, sweeps and shuts down. *)
Definition sampleHistory : list op :=
  [OpGetConn; OpPutConn 0; OpDetect 5; OpSweep 3; OpGetConn; OpClose].


(** A pool of size two after one acquire and release: one connection
    has been created and is idle. *)
Definition oneIdleOfTwo (f : nat -> netConn + error) : Server :=
  run [OpGetConn; OpPutConn 0] (fresh f 2 quiet).

(** A pool of size one with its connection idle. *)
Definition oneIdleOfOne : Server :=
  run [OpGetConn; OpPutConn 0] (fresh dialAlways 1 quiet).


(** ** The interval as the design document words it *)

(** Following the design document: the value of the environment variable
    when it is set and parses as an integer, the default of 20 when it is
    unset or cannot be parsed. *)
Definition documentedInterval (a : Ambient) : Z :=
  match environ a "T1K_HEARTBEAT_INTERVAL" with
  | Some v =>
      match Atoi v with
      | Some n => n
      | None => 20%Z
      end
  | None => 20%Z
  end.

(** What the heartbeat loop leaves alone: the environment and its reads,
    and the timers made so far. *)
Definition same_clock (s s' : Server) : Prop :=
  getenvs s' = getenvs s /\ timers s' = timers s /\ amb s' = amb s.


(** ** What a run of the growth loop has done *)

(** The state after [k] connections were created on top of [s], one per
    successful call of the factory: each is counted, stored healthy with
    the transport the factory returned, and queued behind what was
    idle. *)
Record grown (s s' : Server) (k : nat) : Prop := mkGrown {
  gr_count : count s' = (count s + Z.of_nat k)%Z;
  gr_pool : poolCh s' = poolCh s ++ seq (length (heap s)) k;
  gr_heap : exists new : list conn,
      heap s' = heap s ++ new /\ length new = k /\
      forall j, j < k ->
        exists sock, socketFactory s (dials s + j) = inl sock /\
                     new !! j = Some (Conn sock false);
  gr_factory : socketFactory s' = socketFactory s;
  gr_size : poolSize s' = poolSize s;
  gr_cap : poolCap s' = poolCap s;
  gr_closeCh : closeCh s' = closeCh s;
  gr_health : healthCheck s' = healthCheck s;
  gr_closed : closedSocks s' = closedSocks s
}.

(** The state in which [newConn] sends the connection it has made. *)
Definition created (sock : netConn) (s : Server) : Server :=
  set_heap (heap s ++ [Conn sock false])
    (set_count (wrap64 (count s + 1)) (set_dials (S (dials s)) s)).


(** A pool of size one whose connection failed in use and was released:
    it is idle and marked failing, and the factory no longer connects. *)
Definition oneFailingIdle : Server :=
  run [OpGetConn; OpUse 0 0; OpPutConn 0] (fresh dialOnce 1 deaf).

(** The same with a factory that still connects. *)
Definition oneFailingIdleRepairable : Server :=
  run [OpGetConn; OpUse 0 0; OpPutConn 0] (fresh dialAlways 1 deaf).


(** ** Shutdown of an idle pool *)

Definition always_connects (f : nat -> netConn + error) : Prop :=
  forall j : nat, exists sock : netConn, f j = inl sock.

(** Every connection that was created is idle in the queue and healthy,
    and the channel has the capacity of the pool. *)
Record idle_healthy (s : Server) : Prop := mkIdleHealthy {
  ih_cap : poolCap s = poolSize s;
  ih_all : Z.of_nat (length (poolCh s)) = count s;
  ih_ok : forall c, In c (poolCh s) ->
          exists k, heap s !! c = Some k /\ failing k = false;
  ih_cover : forall c k, heap s !! c = Some k -> In c (poolCh s)
}.

(** The state of [Close] before iteration [i] of its loop on such a pool:
    [i] connections have been taken and closed, the others are idle. *)
Record draining (i : Z) (s : Server) : Prop := mkDraining {
  dr_inv : inv s;
  dr_cap : poolCap s = poolSize s;
  dr_factory : always_connects (socketFactory s);
  dr_i : (0 <= i)%Z;
  dr_idle : Z.of_nat (length (poolCh s)) = (count s - i)%Z;
  dr_ok : forall c, In c (poolCh s) ->
          exists k, heap s !! c = Some k /\ failing k = false;
  dr_cover : forall c k, heap s !! c = Some k ->
             In c (poolCh s) \/ In (socket k) (closedSocks s)
}.


(** ** The dialing constructors *)

(** [net.Dial(network, addr)] and [net.DialTimeout(network, addr, timeout)]
    are given by the network: the answer to the k-th call. *)
Definition Dialer : Type := string -> string -> nat -> netConn + error.
Definition TimeoutDialer : Type := string -> string -> Z -> nat -> netConn + error.

Definition NewWithPoolSize (dial : Dialer) (addr : string) (size : Z)
  (hc : option error) (a : Ambient) : construction :=
  NewFromSocketFactoryWithPoolSize (dial "tcp"%string addr) size hc a.

Definition New (dial : Dialer) (addr : string) (hc : option error) (a : Ambient)
  : construction :=
  NewWithPoolSize dial addr DEFAULT_POOL_SIZE hc a.

Definition NewWithPoolSizeWithTimeout (dial : TimeoutDialer) (addr : string) (size : Z)
  (timeout : Z) (hc : option error) (a : Ambient) : construction :=
  NewFromSocketFactoryWithPoolSize (dial "tcp"%string addr timeout) size hc a.

Definition NewWithTimeout (dial : TimeoutDialer) (addr : string) (timeout : Z)
  (hc : option error) (a : Ambient) : construction :=
  NewWithPoolSizeWithTimeout dial addr DEFAULT_POOL_SIZE timeout hc a.

(** ** What the pool operations leave alone *)

(** The configuration and the shutdown state: only the update methods,
    [Close] and the constructor assign these fields. *)
Record untouched (s s' : Server) : Prop := mkUntouched {
  un_closeCh : closeCh s' = closeCh s;
  un_health : healthCheck s' = healthCheck s;
  un_factory : socketFactory s' = socketFactory s;
  un_hook : SocketErrorHook s' = SocketErrorHook s;
  un_size : poolSize s' = poolSize s;
  un_cap : poolCap s' = poolCap s
}.

(** What a sweep leaves alone on top of that: nothing is created, dialed
    or closed. *)
Record unchanged_pool (s s' : Server) : Prop := mkUnchangedPool {
  up_count : count s' = count s;
  up_dials : dials s' = dials s;
  up_hookLog : hookLog s' = hookLog s;
  up_closed : closedSocks s' = closedSocks s;
  up_heap : length (heap s') = length (heap s);
  up_cap : poolCap s' = poolCap s;
  up_amb : amb s' = amb s
}.

(** Every pointer in the queue is the address of a connection. *)
Definition queue_live (s : Server) : Prop :=
  Forall (fun c => c < length (heap s)) (poolCh s).


(** A pool of size four after its first [GetConn] on a peer that fails
    every exchange: connection 0 is checked out, connection 1 is idle. *)
Definition oneOutOneIdle : Server := run [OpGetConn] (fresh dialAlways 4 deaf).


(** The transports of the connections at the pointers [q], in order. *)
Definition socketsOf (h : list conn) (q : list ptr) : list netConn :=
  flat_map (fun c => match h !! c with Some k => [socket k] | None => [] end) q.

(** A pool of size two on a failing peer whose two connections are idle. *)
Definition twoIdleOfTwo : Server :=
  run [OpGetConn; OpPutConn 0; OpGetConn; OpPutConn 0] (fresh dialAlways 2 deaf).


(** A pool of size one on a failing peer with its connection idle. *)
Definition oneIdleOnDeafPeer : Server :=
  run [OpGetConn; OpPutConn 0] (fresh dialAlways 1 deaf).


(** The operations that use the pool, as opposed to those that configure
    it or shut it down. *)
Definition is_pool_op (o : op) : Prop :=
  match o with
  | OpClose | OpUpdateSockFactory _ | OpUpdateSockErrorHandler _ => False
  | _ => True
  end.


(** * Properties *)

(** ** Arithmetic of [wrap64] *)

Lemma wrap64_id (z : Z) : int64_range z -> wrap64 z = z.
Proof.
  unfold int64_range, wrap64. intros Hz.
  rewrite Z.mod_small by lia. lia.
Qed.

Lemma wrap64_range (z : Z) : int64_range (wrap64 z).
Proof.
  unfold int64_range, wrap64.
  pose proof (Z.mod_pos_bound (z + 2 ^ 63) (2 ^ 64)) as Hb. lia.
Qed.

Lemma wrap64_succ_pos (i b : Z) : (0 <= i)%Z -> (i < wrap64 b)%Z -> wrap64 (i + 1) = (i + 1)%Z.
Proof.
  intros Hi Hb. pose proof (wrap64_range b) as Hr.
  apply wrap64_id. unfold int64_range in *. lia.
Qed.

Lemma evolves_refl (s : Server) : evolves s s.
Proof. constructor; auto; lia. Qed.

Lemma evolves_trans (s1 s2 s3 : Server) : evolves s1 s2 -> evolves s2 s3 -> evolves s1 s3.
Proof.
  intros [A1 A2 A3 A4 A5 A6 A7] [B1 B2 B3 B4 B5 B6 B7].
  constructor; try congruence; try lia; auto.
  intros H. specialize (A5 H). specialize (B5 (A4 H)). lia.
Qed.

Lemma evolves_bind {A B : Type} (m : outcome A) (k : A -> Server -> outcome B) (s : Server) :
  evolves s (final m) ->
  (forall a s1, m = Done a s1 -> evolves s1 (final (k a s1))) ->
  evolves s (final (bind m k)).
Proof.
  intros Hm Hk. destruct m; simpl in *; auto.
  eapply evolves_trans; eauto.
Qed.

(** A field that the invariant does not read may change freely. *)
Ltac frame_step :=
  constructor; simpl; auto; try lia;
  intros [? ? ? ? ?]; constructor; simpl in *; auto.

Lemma evolves_dials (n : nat) (s : Server) : dials s <= n -> evolves s (set_dials n s).
Proof. intros. frame_step. Qed.

Lemma evolves_hookLog (l : list error) (s : Server) : evolves s (set_hookLog l s).
Proof. frame_step. Qed.

Lemma evolves_ios (n : nat) (s : Server) : evolves s (set_ios n s).
Proof. frame_step. Qed.

Lemma evolves_closedSocks (l : list netConn) (s : Server) : evolves s (set_closedSocks l s).
Proof. frame_step. Qed.

Lemma evolves_closeCh (b : bool) (s : Server) : evolves s (set_closeCh b s).
Proof. frame_step. Qed.

Lemma evolves_healthCheck (b : bool) (s : Server) : evolves s (set_healthCheck b s).
Proof. frame_step. Qed.

Lemma evolves_getenvs (n : nat) (s : Server) : evolves s (set_getenvs n s).
Proof. frame_step. Qed.

Lemma evolves_timers (l : list Z) (s : Server) : evolves s (set_timers l s).
Proof. frame_step. Qed.

Lemma evolves_socketFactory (f : nat -> netConn + error) (s : Server) :
  evolves s (set_socketFactory f s).
Proof. frame_step. Qed.

Lemma evolves_SocketErrorHook (h : bool) (s : Server) : evolves s (set_SocketErrorHook h s).
Proof. frame_step. Qed.

(** Writing through a pointer keeps the number of connections. *)
Lemma evolves_store (c : ptr) (k : conn) (s : Server) :
  evolves s (set_heap (<[c := k]> (heap s)) s).
Proof.
  constructor; simpl; auto; try lia.
  - intros [? ? ? ? ?]; constructor; simpl in *; auto.
    rewrite length_insert. auto.
  - rewrite length_insert. lia.
Qed.

Lemma evolves_pop (c : ptr) (q : list ptr) (s : Server) :
  poolCh s = c :: q -> evolves s (set_poolCh q s).
Proof.
  intros Hq. constructor; simpl; auto; try lia.
  intros [? ? ? ? Hc]; constructor; simpl in *; auto.
  rewrite Hq in Hc. simpl in Hc. lia.
Qed.

Lemma chanSend_evolves (c : ptr) (s : Server) : evolves s (final (chanSend c s)).
Proof.
  unfold chanSend. destruct (Z.ltb_spec (Z.of_nat (length (poolCh s))) (poolCap s)); simpl.
  - constructor; simpl; auto; try lia.
    intros [? ? ? ? ?]; constructor; simpl in *; auto.
    rewrite length_app. simpl. lia.
  - apply evolves_refl.
Qed.

Lemma chanRecv_evolves (s : Server) : evolves s (final (chanRecv s)).
Proof.
  unfold chanRecv. destruct (poolCh s) eqn:Hq; simpl.
  - apply evolves_refl.
  - eapply evolves_pop; eauto.
Qed.

Lemma callSockFactory_evolves (s : Server) : evolves s (snd (callSockFactory s)).
Proof.
  unfold callSockFactory.
  destruct (socketFactory s (dials s)); simpl.
  - apply evolves_dials. lia.
  - destruct (SocketErrorHook s); simpl.
    + eapply evolves_trans; [apply evolves_dials | apply evolves_hookLog]. lia.
    + apply evolves_dials. lia.
Qed.

(** The one place where the count changes: a connection is created and
    counted.  The invariant survives when there was room for it. *)
Lemma evolves_create (k : conn) (s : Server) :
  (inv s -> (count s < poolSize s)%Z) ->
  evolves s (set_heap (heap s ++ [k]) (set_count (wrap64 (count s + 1)) s)).
Proof.
  intros Hroom. constructor; simpl; auto.
  - intros Hi. pose proof (Hroom Hi). destruct Hi as [? ? ? ? ?].
    rewrite wrap64_id by (unfold int64_range; lia).
    constructor; simpl; auto; try lia.
    rewrite length_app. simpl. lia.
  - intros Hi. pose proof (Hroom Hi). destruct Hi as [? ? ? ? ?].
    rewrite wrap64_id by (unfold int64_range; lia). lia.
  - rewrite length_app. lia.
Qed.

(** A call of the factory touches the dial counter and the hook log only. *)
Lemma callSockFactory_frame (s : Server) :
  let s1 := snd (callSockFactory s) in
  fst (callSockFactory s) = socketFactory s (dials s) /\
  dials s1 = S (dials s) /\
  count s1 = count s /\ poolSize s1 = poolSize s /\ heap s1 = heap s /\
  poolCh s1 = poolCh s /\ poolCap s1 = poolCap s /\
  socketFactory s1 = socketFactory s /\ SocketErrorHook s1 = SocketErrorHook s /\
  closeCh s1 = closeCh s /\ healthCheck s1 = healthCheck s /\
  closedSocks s1 = closedSocks s /\ ios s1 = ios s.
Proof.
  unfold callSockFactory.
  destruct (socketFactory s (dials s)); simpl; [repeat split |].
  destruct (SocketErrorHook s) eqn:Hh; simpl; rewrite ?Hh; repeat split.
Qed.

Lemma callSockFactory_inv_back (s : Server) : inv (snd (callSockFactory s)) -> inv s.
Proof.
  pose proof (callSockFactory_frame s) as H. simpl in H.
  destruct H as (_ & _ & Hc & Hp & Hh & Hq & Hcap & _).
  intros [? ? ? ? ?]. constructor; congruence.
Qed.

Lemma newConn_evolves (s : Server) :
  (inv s -> (count s < poolSize s)%Z) -> evolves s (final (newConn s)).
Proof.
  intros Hroom. unfold newConn, CallSockFactory.
  pose proof (callSockFactory_evolves s) as Hf.
  pose proof (callSockFactory_frame s) as Hfr.
  pose proof (callSockFactory_inv_back s) as Hback.
  destruct (callSockFactory s) as [[sock | err] s1]; simpl in *; auto.
  destruct Hfr as (_ & _ & Hc & Hp & _).
  eapply evolves_trans; [exact Hf |].
  apply evolves_bind.
  - eapply evolves_trans; [| apply chanSend_evolves].
    apply (evolves_create (Conn sock false) s1). intros Hi.
    rewrite Hc, Hp. auto.
  - intros [] s4 _. simpl. apply evolves_refl.
Qed.

Lemma growLoop_evolves (fuel : nat) : forall (i : Z) (s : Server),
  (0 <= i)%Z -> evolves s (final (growLoop fuel i s)).
Proof.
  induction fuel as [| fuel IH]; intros i s Hi; simpl.
  - destruct (i <? wrap64 (poolSize s - count s))%Z; apply evolves_refl.
  - destruct (Z.ltb_spec i (wrap64 (poolSize s - count s))) as [Hlt | Hge];
      [| apply evolves_refl].
    apply evolves_bind.
    + apply newConn_evolves. intros [? ? ? ? ?].
      rewrite wrap64_id in Hlt by (unfold int64_range; lia). lia.
    + intros [e |] s1 _; simpl; [apply evolves_refl |].
      apply IH. erewrite wrap64_succ_pos by eauto. lia.
Qed.

Lemma grow_evolves (s : Server) : evolves s (final (grow s)).
Proof.
  unfold grow. destruct (count s <? poolSize s)%Z; [| apply evolves_refl].
  apply growLoop_evolves. lia.
Qed.

Lemma tryReconnIfFailed_evolves (c : ptr) (s : Server) :
  evolves s (final (tryReconnIfFailed c s)).
Proof.
  unfold tryReconnIfFailed, CallSockFactory.
  destruct (heap s !! c); [| apply evolves_refl].
  pose proof (callSockFactory_evolves s) as Hf.
  destruct (callSockFactory s) as [[sock | err] s1]; simpl in *; auto.
  eapply evolves_trans; [exact Hf | apply evolves_store].
Qed.

Lemma takeConn_evolves (s : Server) : evolves s (final (takeConn s)).
Proof.
  unfold takeConn. apply evolves_bind; [apply chanRecv_evolves |].
  intros c s1 _. destruct (heap s1 !! c) as [k |]; [| apply evolves_refl].
  destruct (failing k); [| apply evolves_refl].
  apply evolves_bind; [apply tryReconnIfFailed_evolves |].
  intros [e |] s2 _; [| apply evolves_refl].
  apply evolves_bind; [apply chanSend_evolves |].
  intros [] s3 _. apply evolves_refl.
Qed.

Lemma GetConn_evolves (s : Server) : evolves s (final (GetConn s)).
Proof.
  unfold GetConn. apply evolves_bind; [apply grow_evolves |].
  intros [e |] s1 _; [apply evolves_refl | apply takeConn_evolves].
Qed.

Lemma PutConn_evolves (c : ptr) (s : Server) : evolves s (final (PutConn c s)).
Proof. apply chanSend_evolves. Qed.

Lemma conn_exchange_evolves (c : ptr) (p : Payload) (s : Server) :
  evolves s (final (conn_exchange c p s)).
Proof.
  unfold conn_exchange. destruct (heap s !! c) as [k |]; [| apply evolves_refl].
  destruct (replyErr _); simpl.
  - eapply evolves_trans;
      [apply (evolves_ios (S (ios s))) | apply (evolves_store c _ (set_ios (S (ios s)) s))].
  - apply evolves_ios.
Qed.

Lemma conn_Heartbeat_evolves (c : ptr) (s : Server) :
  evolves s (final (conn_Heartbeat c s)).
Proof.
  unfold conn_Heartbeat. destruct (heap s !! c) as [k |]; [| apply evolves_refl].
  destruct (pong _ _); simpl.
  - eapply evolves_trans;
      [apply (evolves_ios (S (ios s))) | apply (evolves_store c _ (set_ios (S (ios s)) s))].
  - apply evolves_ios.
Qed.

Lemma conn_Close_evolves (c : ptr) (s : Server) : evolves s (final (conn_Close c s)).
Proof.
  unfold conn_Close. destruct (heap s !! c) as [k |]; [| apply evolves_refl].
  apply evolves_closedSocks.
Qed.

Lemma deferred_evolves {A : Type} (d : Server -> outcome unit) (m : outcome A) (s : Server) :
  evolves s (final m) -> (forall s1, evolves s1 (final (d s1))) ->
  evolves s (final (deferred d m)).
Proof.
  intros Hm Hd. destruct m as [a s1 | s1 | s1 | s1]; simpl in *; auto.
  - eapply evolves_trans; [exact Hm |]. specialize (Hd s1).
    destruct (d s1); simpl in *; auto.
  - eapply evolves_trans; [exact Hm |]. specialize (Hd s1).
    destruct (d s1); simpl in *; auto.
Qed.

Lemma broadcastHeartbeat_evolves (fuel : nat) : forall s : Server,
  evolves s (final (broadcastHeartbeat fuel s)).
Proof.
  induction fuel as [| fuel IH]; intros s; simpl.
  - destruct (poolCh s); apply evolves_refl.
  - destruct (poolCh s) as [| c q] eqn:Hq; [apply evolves_refl |].
    pose proof (evolves_pop c q s Hq) as Hpop.
    simpl. destruct (heap s !! c) as [k |]; simpl; [| exact Hpop].
    eapply evolves_trans; [exact Hpop |].
    apply evolves_bind.
    + destruct (failing k); simpl; [apply evolves_refl | apply conn_Heartbeat_evolves].
    + intros [] s2 _. apply evolves_bind; [apply PutConn_evolves |].
      intros [] s3 _. apply IH.
Qed.

Lemma closeLoop_evolves (fuel : nat) : forall (i : Z) (s : Server),
  evolves s (final (closeLoop fuel i s)).
Proof.
  induction fuel as [| fuel IH]; intros i s; simpl.
  - destruct (i <? count s)%Z; simpl; [apply evolves_refl | apply evolves_healthCheck].
  - destruct (i <? count s)%Z; simpl; [| apply evolves_healthCheck].
    apply evolves_bind; [apply GetConn_evolves |].
    intros [c | e] s1 _; [| apply evolves_refl].
    apply evolves_bind; [apply conn_Close_evolves |].
    intros [] s2 _. apply IH.
Qed.

Lemma Close_evolves (s : Server) : evolves s (final (Close s)).
Proof.
  unfold Close. destruct (closeCh s); [apply evolves_refl |].
  eapply evolves_trans; [apply (evolves_closeCh true) | apply closeLoop_evolves].
Qed.

Lemma conn_call_evolves {A : Type} (g : Reply -> A) (c : ptr) (p : Payload) (s : Server) :
  evolves s (final (call (r, s1) <- conn_exchange c p s; Done (g r) s1)).
Proof.
  apply evolves_bind; [apply conn_exchange_evolves |].
  intros r s1 _. apply evolves_refl.
Qed.

Lemma acquire_then_evolves {A : Type} (onErr : error -> A)
  (body : ptr -> Server -> outcome A) (s : Server) :
  (forall c s1, evolves s1 (final (body c s1))) ->
  evolves s (final (call (r, s1) <- GetConn s;
                    match r with
                    | inr err => Done (onErr err) s1
                    | inl c => body c s1
                    end)).
Proof.
  intros Hbody. apply evolves_bind; [apply GetConn_evolves |].
  intros [c | e] s1 _; [apply Hbody | apply evolves_refl].
Qed.

Lemma DetectRequestInCtx_evolves (dc : Payload) (s : Server) :
  evolves s (final (DetectRequestInCtx dc s)).
Proof.
  apply (acquire_then_evolves (fun err => (None, Some err))). intros c s1.
  apply deferred_evolves; [apply conn_call_evolves | apply PutConn_evolves].
Qed.

Lemma DetectResponseInCtx_evolves (dc : Payload) (s : Server) :
  evolves s (final (DetectResponseInCtx dc s)).
Proof.
  apply (acquire_then_evolves (fun err => (None, Some (ErrorWrap err EmptyString)))). intros c s1.
  apply deferred_evolves; [apply conn_call_evolves | apply PutConn_evolves].
Qed.

Lemma DetectHttpRequest_evolves (req : Payload) (s : Server) :
  evolves s (final (DetectHttpRequest req s)).
Proof.
  apply (acquire_then_evolves (fun err => (None, Some err))). intros c s1.
  apply deferred_evolves; [apply conn_call_evolves | apply PutConn_evolves].
Qed.

Lemma DetectRequest_evolves (req : Payload) (s : Server) :
  evolves s (final (DetectRequest req s)).
Proof.
  apply (acquire_then_evolves (fun err => (None, Some err))). intros c s1.
  apply deferred_evolves; [apply conn_call_evolves | apply PutConn_evolves].
Qed.

Lemma Detect_evolves (dc : Payload) (s : Server) : evolves s (final (Detect dc s)).
Proof.
  apply (acquire_then_evolves (fun err => (None, None, Some (ErrorWrap err EmptyString)))).
  intros c s1. apply evolves_bind; [apply conn_call_evolves |].
  intros ret s2 _. destruct (snd ret); [apply evolves_refl |].
  apply evolves_bind; [apply PutConn_evolves |].
  intros [] s3 _. apply evolves_refl.
Qed.

Lemma exec_evolves (o : op) (s : Server) : evolves s (exec o s).
Proof.
  destruct o; simpl.
  - apply GetConn_evolves.
  - apply PutConn_evolves.
  - apply conn_exchange_evolves.
  - apply DetectRequestInCtx_evolves.
  - apply DetectResponseInCtx_evolves.
  - apply Detect_evolves.
  - apply DetectHttpRequest_evolves.
  - apply DetectRequest_evolves.
  - apply broadcastHeartbeat_evolves.
  - apply Close_evolves.
  - apply evolves_socketFactory.
  - apply evolves_SocketErrorHook.
Qed.

Lemma run_evolves (ops : list op) : forall s : Server, evolves s (run ops s).
Proof.
  induction ops as [| o ops IH]; intros s; simpl.
  - apply evolves_refl.
  - eapply evolves_trans; [apply exec_evolves | apply IH].
Qed.

Lemma run_app (ops1 ops2 : list op) (s : Server) :
  run (ops1 ++ ops2) s = run ops2 (run ops1 s).
Proof. unfold run. apply fold_left_app. Qed.

(** A pool that was just built satisfies the invariant. *)
Lemma New_inv (f : nat -> netConn + error) (N : Z) (hc : option error) (a : Ambient)
  (s0 : Server) :
  (N < 2 ^ 63)%Z ->
  NewFromSocketFactoryWithPoolSize f N hc a = Built s0 ->
  inv s0 /\ poolSize s0 = N /\ poolCap s0 = N /\ count s0 = 0%Z /\ (0 <= N)%Z.
Proof.
  unfold NewFromSocketFactoryWithPoolSize. intros HN.
  destruct (Z.ltb_spec N 0); [discriminate |].
  destruct hc; [discriminate |]. intros [= <-]. simpl.
  rewrite wrap64_id by (unfold int64_range; lia).
  repeat split; simpl; lia.
Qed.

(** Every state that a history reaches from a built pool satisfies the
    invariant. *)
Lemma run_inv (f : nat -> netConn + error) (N : Z) (hc : option error) (a : Ambient)
  (s0 : Server) (ops : list op) :
  (N < 2 ^ 63)%Z ->
  NewFromSocketFactoryWithPoolSize f N hc a = Built s0 ->
  inv (run ops s0).
Proof.
  intros HN Hnew. destruct (New_inv f N hc a s0 HN Hnew) as (Hinv & _).
  apply (ev_inv _ _ (run_evolves ops s0) Hinv).
Qed.

(** ** The count stays within the pool size *)

(** C4: for every pool size [N] and every history of [GetConn],
    [PutConn], detection calls, heartbeat sweeps, [Close] and
    reconfigurations on a pool built with size [N], the count satisfies
    [0 <= s.count <= N].  A prefix of a history is a history, so the
    bound holds between any two operations; sweeps are cut at an
    arbitrary iteration. *)
Theorem count_within_pool_size
  (f : nat -> netConn + error) (N : Z) (hc : option error) (a : Ambient)
  (s0 : Server) (ops : list op) :
  (N < 2 ^ 63)%Z ->
  NewFromSocketFactoryWithPoolSize f N hc a = Built s0 ->
  (0 <= count (run ops s0) <= N)%Z /\ poolSize (run ops s0) = N.
Proof.
  intros HN Hnew.
  destruct (New_inv f N hc a s0 HN Hnew) as (Hinv & Hsize & _).
  pose proof (run_evolves ops s0) as Hev.
  pose proof (ev_inv _ _ Hev Hinv) as [Hlo Hhi _ _ _].
  rewrite (ev_size _ _ Hev), Hsize in Hhi.
  rewrite (ev_size _ _ Hev). auto.
Qed.

Lemma count_within_pool_size_witness :
  (3 < 2 ^ 63)%Z /\
  NewFromSocketFactoryWithPoolSize dialAlways 3 None quiet = Built (fresh dialAlways 3 quiet) /\
  (0 <= count (run sampleHistory (fresh dialAlways 3 quiet)) <= 3)%Z /\
  poolSize (run sampleHistory (fresh dialAlways 3 quiet)) = 3%Z.
Proof.
  split; [reflexivity |]. split; [reflexivity |].
  apply (count_within_pool_size dialAlways 3 None quiet); reflexivity.
Defined.

(** ** The count never goes down *)

(** C9, as amended: on a pool built with size [N], no operation of any
    history decrements the count; [Close] has no decrement either, and
    after it the count is still the number of connections ever created
    (the size of the store that [makeConn] allocates in). *)
Theorem count_never_decreases
  (f : nat -> netConn + error) (N : Z) (hc : option error) (a : Ambient)
  (s0 : Server) (ops : list op) (o : op) :
  (N < 2 ^ 63)%Z ->
  NewFromSocketFactoryWithPoolSize f N hc a = Built s0 ->
  (count (run ops s0) <= count (exec o (run ops s0)))%Z /\
  (count (run ops s0) <= count (final (Close (run ops s0))))%Z /\
  count (final (Close (run ops s0)))
  = Z.of_nat (length (heap (final (Close (run ops s0))))).
Proof.
  intros HN Hnew.
  destruct (New_inv f N hc a s0 HN Hnew) as (Hinv & _).
  pose proof (ev_inv _ _ (run_evolves ops s0) Hinv) as Hs.
  split; [apply (ev_count _ _ (exec_evolves o _) Hs) |].
  split; [apply (ev_count _ _ (Close_evolves _) Hs) |].
  apply (inv_heap _ (ev_inv _ _ (Close_evolves _) Hs)).
Qed.

Lemma count_never_decreases_witness :
  (2 < 2 ^ 63)%Z /\
  NewFromSocketFactoryWithPoolSize dialAlways 2 None quiet = Built (fresh dialAlways 2 quiet) /\
  (count (run [OpGetConn] (fresh dialAlways 2 quiet))
   <= count (exec (OpPutConn 0%nat) (run [OpGetConn] (fresh dialAlways 2 quiet))))%Z /\
  (count (run [OpGetConn] (fresh dialAlways 2 quiet))
   <= count (final (Close (run [OpGetConn] (fresh dialAlways 2 quiet)))))%Z /\
  count (final (Close (run [OpGetConn] (fresh dialAlways 2 quiet))))
  = Z.of_nat (length (heap (final (Close (run [OpGetConn] (fresh dialAlways 2 quiet)))))).
Proof.
  split; [reflexivity |]. split; [reflexivity |].
  apply (count_never_decreases dialAlways 2 None quiet); reflexivity.
Defined.

(** C9 as stated fails where it says that [Close] leaves the count
    unchanged: with one connection of a pool of two created and idle,
    the first [GetConn] of the drain creates the second one. *)
Lemma Close_changes_count :
  count (oneIdleOfTwo dialAlways) = 1%Z /\
  count (final (Close (oneIdleOfTwo dialAlways))) = 2%Z /\
  count (final (Close (oneIdleOfTwo dialAlways))) <> count (oneIdleOfTwo dialAlways).
Proof. repeat split. vm_compute. discriminate. Qed.

(** ** Growth *)

(** C1 fails on the code.  The bound [s.poolSize - s.count] of the loop
    is evaluated again after every [newConn], while [i] goes up: on a
    fresh pool of size two whose factory always connects, the first
    [GetConn] returns with one factory call made and the count at one. *)
Theorem growth_stops_halfway :
  exists (c : ptr) (s' : Server),
    GetConn (fresh dialAlways 2 quiet) = Done (inl c) s' /\
    poolSize s' = 2%Z /\ count s' = 1%Z /\ dials s' = 1 /\ length (heap s') = 1.
Proof.
  exists 0, (final (GetConn (fresh dialAlways 2 quiet))).
  split; [vm_compute; reflexivity |]. repeat split.
Qed.

(** ** Shutdown *)

(** C3 fails on the code.  [Close] leaves through [return] when
    [GetConn] fails, past [s.healthCheck.Close()]: with one connection of
    two idle and a factory that no longer connects, [Close] returns and
    the Health-Check Service is still running. *)
Theorem Close_skips_health_check :
  exists s' : Server,
    Close (oneIdleOfTwo dialOnce) = Done tt s' /\
    closeCh s' = true /\ healthCheck s' = false.
Proof.
  exists (final (Close (oneIdleOfTwo dialOnce))).
  split; [vm_compute; reflexivity |]. split; vm_compute; reflexivity.
Qed.

(** ** The heartbeat sweep *)

(** Whatever is idle when a sweep starts keeps the sweep from returning:
    every connection taken out is put back before the next receive. *)
Lemma sweep_never_returns (fuel : nat) : forall (s : Server) (a : unit) (s' : Server),
  poolCh s <> [] -> broadcastHeartbeat fuel s <> Done a s'.
Proof.
  induction fuel as [| fuel IH]; intros s a s' Hq; simpl.
  - destruct (poolCh s); [congruence | discriminate].
  - destruct (poolCh s) as [| c q]; [congruence |]. simpl.
    destruct (heap s !! c) as [k |]; [| discriminate].
    destruct (if negb (failing k) then conn_Heartbeat c (set_poolCh q s)
              else Done tt (set_poolCh q s)) as [[] s2 | s2 | s2 | s2];
      simpl; try discriminate.
    unfold PutConn, chanSend.
    destruct (Z.of_nat (length (poolCh s2)) <? poolCap s2)%Z; simpl; [| discriminate].
    apply IH. simpl. destruct (poolCh s2); discriminate.
Qed.

Lemma chanSend_room (c : ptr) (s : Server) :
  (Z.of_nat (length (poolCh s)) < poolCap s)%Z ->
  chanSend c s = Done tt (set_poolCh (poolCh s ++ [c]) s).
Proof.
  intros Hroom. unfold chanSend.
  destruct (Z.ltb_spec (Z.of_nat (length (poolCh s))) (poolCap s)); [reflexivity | lia].
Qed.

Lemma sweep_one_healthy (fuel : nat) : forall (s : Server) (c : ptr) (sock : netConn),
  poolCh s = [c] -> heap s !! c = Some (Conn sock false) ->
  (1 <= poolCap s)%Z -> (forall k, pong (amb s) k = None) ->
  exists s', broadcastHeartbeat fuel s = OutOfFuel s' /\
             ios s' = ios s + fuel /\ poolCh s' = [c] /\ heap s' = heap s.
Proof.
  induction fuel as [| fuel IH]; intros s c sock Hq Hc Hcap Hpong; simpl; rewrite Hq.
  - exists s. repeat split; auto.
  - simpl. rewrite Hc. simpl. unfold conn_Heartbeat. simpl. rewrite Hc, Hpong. simpl.
    unfold PutConn. rewrite chanSend_room by (simpl; lia). simpl.
    destruct (IH (set_poolCh [c] (set_ios (S (ios s)) (set_poolCh [] s))) c sock)
      as (s' & Hrun & Hios & Hq' & Hh'); simpl; auto.
    exists s'. simpl in *. repeat split; auto. lia.
Qed.

(** C2 fails on the code.  With the one connection of a pool idle and
    answering its pings, the sweep is still running after any number of
    iterations: it has pinged that connection once per iteration and the
    connection is in the queue again, so the [default] case that returns
    to the timer loop is never taken. *)
Theorem sweep_spins_on_one_idle_connection (fuel : nat) :
  exists s' : Server,
    broadcastHeartbeat fuel oneIdleOfOne = OutOfFuel s' /\
    ios s' = fuel /\ poolCh s' = [0] /\
    forall (fuel' : nat) (a : unit) (s'' : Server),
      broadcastHeartbeat fuel' s' <> Done a s''.
Proof.
  destruct (sweep_one_healthy fuel oneIdleOfOne 0 0) as (s' & Hrun & Hios & Hq & _).
  - reflexivity.
  - reflexivity.
  - vm_compute. intros H. discriminate H.
  - intros k. reflexivity.
  - exists s'. split; [exact Hrun |]. split; [exact Hios |]. split; [exact Hq |].
    intros fuel' a s''. apply sweep_never_returns. rewrite Hq. discriminate.
Qed.

(** ** The heartbeat interval *)

Lemma same_clock_refl (s : Server) : same_clock s s.
Proof. repeat split. Qed.

Lemma same_clock_trans (s1 s2 s3 : Server) :
  same_clock s1 s2 -> same_clock s2 s3 -> same_clock s1 s3.
Proof. unfold same_clock. intros (? & ? & ?) (? & ? & ?). repeat split; congruence. Qed.

Lemma conn_Heartbeat_clock (c : ptr) (s : Server) : same_clock s (final (conn_Heartbeat c s)).
Proof.
  unfold conn_Heartbeat. destruct (heap s !! c); [| apply same_clock_refl].
  destruct (pong _ _); repeat split.
Qed.

Lemma chanSend_clock (c : ptr) (s : Server) : same_clock s (final (chanSend c s)).
Proof.
  unfold chanSend. destruct (_ <? _)%Z; repeat split.
Qed.

Lemma broadcastHeartbeat_clock (fuel : nat) : forall s : Server,
  same_clock s (final (broadcastHeartbeat fuel s)).
Proof.
  induction fuel as [| fuel IH]; intros s; simpl.
  - destruct (poolCh s); apply same_clock_refl.
  - destruct (poolCh s) as [| c q]; [apply same_clock_refl |]. simpl.
    destruct (heap s !! c) as [k |]; [| repeat split].
    assert (Hb : same_clock s (final (if negb (failing k)
                                      then conn_Heartbeat c (set_poolCh q s)
                                      else Done tt (set_poolCh q s)))).
    { destruct (failing k); simpl; [repeat split |].
      eapply same_clock_trans; [| apply conn_Heartbeat_clock]. repeat split. }
    destruct (if negb (failing k) then conn_Heartbeat c (set_poolCh q s)
              else Done tt (set_poolCh q s)) as [[] s2 | s2 | s2 | s2]; simpl in *; auto.
    pose proof (chanSend_clock c s2) as Hs. unfold PutConn.
    destruct (chanSend c s2) as [[] s3 | s3 | s3 | s3]; simpl in *;
      try (eapply same_clock_trans; eassumption).
    eapply same_clock_trans; [| apply IH].
    eapply same_clock_trans; eassumption.
Qed.

Lemma heartbeatLoop_timers (interval : Z) (fuel : nat) (wakes : list wake) :
  forall s : Server,
  exists n : nat,
    timers (final (heartbeatLoop interval fuel wakes s))
    = timers s ++ repeat (wrap64 (interval * 1000000000)) n /\
    getenvs (final (heartbeatLoop interval fuel wakes s)) = getenvs s.
Proof.
  induction wakes as [| w wakes IH]; intros s; simpl.
  - exists 1. split; reflexivity.
  - destruct w; [exists 1; split; reflexivity |].
    pose proof (broadcastHeartbeat_clock fuel (NewTimer interval s)) as (Hg & Ht & _).
    destruct (broadcastHeartbeat fuel (NewTimer interval s)) as [[] s2 | s2 | s2 | s2];
      simpl in *; try (exists 1; split; assumption).
    destruct (IH s2) as (n & Hn & Hgn). exists (S n).
    rewrite Hn, Hgn, Ht, Hg. split; [| reflexivity].
    rewrite <- app_assoc. reflexivity.
Qed.

(** C8: [runHeartbeatCo] reads the environment once, before the loop.
    The interval is the value of [T1K_HEARTBEAT_INTERVAL] when the
    variable is set and [strconv.Atoi] parses it, and 20 when it is unset
    or does not parse; every timer the loop makes afterwards, whatever
    wakes it, has that interval in seconds as its duration. *)
Theorem interval_read_once (fuel : nat) (wakes : list wake) (s : Server) :
  fst (heartbeatInterval s) = documentedInterval (amb s) /\
  getenvs (final (runHeartbeatCo fuel wakes s)) = S (getenvs s) /\
  exists n : nat,
    timers (final (runHeartbeatCo fuel wakes s))
    = timers s ++ repeat (wrap64 (documentedInterval (amb s) * 1000000000)) n.
Proof.
  assert (Hi : fst (heartbeatInterval s) = documentedInterval (amb s)).
  { unfold heartbeatInterval, documentedInterval, Getenv, HEARTBEAT_INTERVAL.
    destruct (environ (amb s) "T1K_HEARTBEAT_INTERVAL") as [v |]; cbn -[Atoi];
      [| reflexivity].
    destruct v as [| ch v]; cbn -[Atoi]; [reflexivity |].
    destruct (Atoi (String ch v)); reflexivity. }
  split; [exact Hi |].
  unfold runHeartbeatCo.
  assert (Hs : snd (heartbeatInterval s) = set_getenvs (S (getenvs s)) s).
  { unfold heartbeatInterval, Getenv.
    destruct (negb _); [destruct (Atoi _) |]; reflexivity. }
  destruct (heartbeatInterval s) as [interval s1]. simpl in Hi, Hs. subst interval s1.
  destruct (heartbeatLoop_timers (documentedInterval (amb s)) fuel wakes
              (set_getenvs (S (getenvs s)) s)) as (n & Hn & Hg).
  split; [rewrite Hg; reflexivity |].
  exists n. rewrite Hn. reflexivity.
Qed.

(** ** What the growth loop does *)

Lemma newConn_ok (s : Server) (sock : netConn) :
  socketFactory s (dials s) = inl sock ->
  newConn s = call (_, s4) <- chanSend (length (heap s)) (created sock s); Done None s4.
Proof.
  intros Hf. unfold newConn, CallSockFactory, callSockFactory. rewrite Hf. reflexivity.
Qed.

Lemma newConn_err (s : Server) (e : error) :
  socketFactory s (dials s) = inr e ->
  newConn s = Done (Some e) (snd (callSockFactory s)).
Proof.
  intros Hf. unfold newConn, CallSockFactory, callSockFactory. rewrite Hf.
  destruct (SocketErrorHook _); reflexivity.
Qed.

Lemma grown_zero (s s' : Server) :
  count s' = count s -> poolCh s' = poolCh s -> heap s' = heap s ->
  socketFactory s' = socketFactory s -> poolSize s' = poolSize s ->
  poolCap s' = poolCap s -> closeCh s' = closeCh s -> healthCheck s' = healthCheck s ->
  closedSocks s' = closedSocks s ->
  grown s s' 0.
Proof.
  intros. constructor; auto.
  - lia.
  - simpl. rewrite app_nil_r. auto.
  - exists []. rewrite app_nil_r. repeat split; auto. intros j Hj. lia.
Qed.

Lemma grown_step (s s' : Server) (sock : netConn) (k : nat) :
  socketFactory s (dials s) = inl sock ->
  (count s + 1 < 2 ^ 63)%Z -> (- 2 ^ 63 <= count s)%Z ->
  grown (set_poolCh (poolCh s ++ [length (heap s)]) (created sock s)) s' k ->
  grown s s' (S k).
Proof.
  intros Hf Hhi Hlo [Hc Hp (new & Hh & Hlen & Hnew) Hfa Hsz Hcap Hcl Hhe Hcs].
  simpl in *. rewrite wrap64_id in Hc by (unfold int64_range; lia).
  constructor; auto.
  - lia.
  - rewrite Hp, length_app, <- app_assoc. simpl.
    replace (length (heap s) + 1) with (S (length (heap s))) by lia. reflexivity.
  - exists (Conn sock false :: new). rewrite Hh, <- app_assoc. simpl.
    repeat split; auto.
    intros [| j] Hj.
    + exists sock. rewrite Nat.add_0_r. auto.
    + destruct (Hnew j) as (sk & H1 & H2); [lia |]. exists sk.
      replace (dials s + S j) with (S (dials s) + j) by lia. auto.
Qed.

Lemma growLoop_trace (fuel : nat) : forall (i : Z) (s : Server) (r : option error) (s' : Server),
  (0 <= i)%Z -> inv s -> growLoop fuel i s = Done r s' ->
  exists k : nat,
    grown s s' k /\
    match r with
    | Some e =>
        dials s' = dials s + k + 1 /\ socketFactory s (dials s + k) = inr e /\
        (i + Z.of_nat k < poolSize s - (count s + Z.of_nat k))%Z
    | None =>
        dials s' = dials s + k /\
        (poolSize s - (count s + Z.of_nat k) <= i + Z.of_nat k)%Z /\
        (0 < k -> (i + Z.of_nat k - 1 < poolSize s - (count s + Z.of_nat k - 1))%Z)
    end.
Proof.
  induction fuel as [| fuel IH]; intros i s r s' Hi Hinv; simpl.
  - destruct (Z.ltb_spec i (wrap64 (poolSize s - count s))) as [Hlt | Hge]; [discriminate |].
    intros [= <- <-]. exists 0. split.
    + apply grown_zero; auto.
    + destruct Hinv as [? ? ? ? ?].
      rewrite wrap64_id in Hge by (unfold int64_range; lia).
      repeat split; try lia.
  - destruct (Z.ltb_spec i (wrap64 (poolSize s - count s))) as [Hlt | Hge].
    + pose proof Hinv as [Hlo Hhi Hsz Hhp Hch].
      rewrite wrap64_id in Hlt by (unfold int64_range; lia).
      destruct (socketFactory s (dials s)) as [sock | e] eqn:Hf.
      * rewrite (newConn_ok s sock Hf).
        pose proof (newConn_evolves s) as Hev. rewrite (newConn_ok s sock Hf) in Hev.
        unfold chanSend in *.
        destruct (Z.of_nat (length (poolCh (created sock s))) <? poolCap (created sock s))%Z;
          simpl in *; [| discriminate].
        intros Hrun.
        assert (Hinv4 : inv (set_poolCh (poolCh s ++ [length (heap s)]) (created sock s))).
        { refine (ev_inv _ _ (Hev _) Hinv). intros _. lia. }
        rewrite wrap64_id in Hrun by (unfold int64_range; lia).
        destruct (IH (i + 1)%Z _ _ _ ltac:(lia) Hinv4 Hrun) as (k & Hg & Hr).
        exists (S k). split.
        -- apply (grown_step s s' sock k); auto; lia.
        -- simpl in Hr. rewrite wrap64_id in Hr by (unfold int64_range; lia).
           destruct r as [e |].
           ++ destruct Hr as (Hd & Hfe & Hb). repeat split; try lia.
              replace (dials s + S k) with (S (dials s + k)) by lia. exact Hfe.
           ++ destruct Hr as (Hd & Hb1 & Hb2). repeat split; try lia.
      * rewrite (newConn_err s e Hf). simpl. intros [= <- <-].
        pose proof (callSockFactory_frame s) as Hfr. simpl in Hfr.
        destruct Hfr as (_ & Hd & Hc & Hp & Hh & Hq & Hcap & Hsf & _ & Hcl & Hhe & Hcs & _).
        exists 0. split; [apply grown_zero; auto |].
        rewrite Nat.add_0_r. repeat split; auto; lia.
    + intros [= <- <-]. exists 0. split; [apply grown_zero; auto |].
      destruct Hinv as [? ? ? ? ?].
      rewrite wrap64_id in Hge by (unfold int64_range; lia).
      repeat split; try lia.
Qed.

Lemma evolves_final_bind {A B : Type} (m : outcome A) (k : A -> Server -> outcome B) :
  (forall a s1, evolves s1 (final (k a s1))) -> evolves (final m) (final (bind m k)).
Proof. intros Hk. destruct m; simpl; auto using evolves_refl. Qed.

(** Below the pool size the loop is entered and [newConn] runs at least
    once. *)
Lemma grow_unfold (s : Server) :
  inv s -> (count s < poolSize s)%Z ->
  grow s = call (err, s1) <- newConn s;
           match err with
           | Some e => Done (Some e) s1
           | None => growLoop (Nat.pred (Z.to_nat (poolSize s - count s))) (wrap64 (0 + 1)) s1
           end.
Proof.
  intros [Hlo Hhi Hsz _ _] Hlt. unfold grow.
  destruct (Z.ltb_spec (count s) (poolSize s)); [| lia].
  destruct (Z.to_nat (poolSize s - count s)) as [| n] eqn:Hn; [lia |].
  simpl. rewrite wrap64_id by (unfold int64_range; lia).
  destruct (Z.ltb_spec 0 (poolSize s - count s)); [reflexivity | lia].
Qed.

Lemma grow_growLoop (s : Server) :
  (count s < poolSize s)%Z -> grow s = growLoop (Z.to_nat (poolSize s - count s)) 0 s.
Proof.
  intros Hlt. unfold grow. destruct (Z.ltb_spec (count s) (poolSize s)); [reflexivity | lia].
Qed.

Lemma GetConn_first_dial_fails (s : Server) (e : error) :
  inv s -> (count s < poolSize s)%Z -> socketFactory s (dials s) = inr e ->
  GetConn s = Done (inr e) (snd (callSockFactory s)).
Proof.
  intros Hinv Hlt Hf. unfold GetConn.
  rewrite (grow_unfold s Hinv Hlt), (newConn_err s e Hf). reflexivity.
Qed.

(** Below the pool size [GetConn] calls the factory, however it ends. *)
Lemma GetConn_dials (s : Server) :
  inv s -> (count s < poolSize s)%Z ->
  dials s < dials (final (GetConn s)) /\
  forall sock, socketFactory s (dials s) = inl sock ->
    (count s + 1 <= count (final (GetConn s)))%Z.
Proof.
  intros Hinv Hlt. pose proof Hinv as [Hlo Hhi Hsz Hhp Hch].
  destruct (socketFactory s (dials s)) as [sock | e] eqn:Hf.
  - assert (Hc : evolves (created sock s) (final (GetConn s))).
    { unfold GetConn. rewrite (grow_unfold s Hinv Hlt), (newConn_ok s sock Hf).
      eapply evolves_trans; [| apply evolves_final_bind].
      - eapply evolves_trans; [| apply evolves_final_bind].
        + eapply evolves_trans; [| apply evolves_final_bind].
          * apply chanSend_evolves.
          * intros [] s1. apply evolves_refl.
        + intros [e |] s1; [apply evolves_refl |].
          apply growLoop_evolves. rewrite wrap64_id; unfold int64_range; lia.
      - intros [e |] s2; [apply evolves_refl | apply takeConn_evolves]. }
    assert (Hic : inv (created sock s)).
    { constructor; simpl; rewrite ?wrap64_id by (unfold int64_range; lia);
        rewrite ?length_app; simpl; lia. }
    split.
    + pose proof (ev_dials _ _ Hc) as Hd. simpl in Hd. lia.
    + intros sock' _. pose proof (ev_count _ _ Hc Hic) as Hcnt. simpl in Hcnt.
      rewrite wrap64_id in Hcnt by (unfold int64_range; lia). lia.
  - rewrite (GetConn_first_dial_fails s e Hinv Hlt Hf). simpl.
    pose proof (callSockFactory_frame s) as Hfr. simpl in Hfr.
    destruct Hfr as (_ & Hd & _). split; [lia | discriminate].
Qed.

(** Growth that runs to its end has made half of the missing
    connections, rounded up: with two or more missing, the pool is still
    short of its size after the call. *)
Lemma growth_amount (s s' : Server) :
  inv s -> (count s < poolSize s)%Z -> grow s = Done None s' ->
  count s' = (count s + (poolSize s - count s + 1) / 2)%Z /\
  (2 <= poolSize s - count s -> count s' < poolSize s')%Z.
Proof.
  intros Hinv Hlt Hg. rewrite (grow_growLoop s Hlt) in Hg.
  destruct (growLoop_trace _ 0 s None s' ltac:(lia) Hinv Hg) as (k & Hgr & _ & Hstop & Hlast).
  destruct Hgr as [Gc _ _ _ Gs _ _ _ _].
  assert (Hk : 0 < k) by lia. specialize (Hlast Hk).
  assert (Hdiv : ((poolSize s - count s + 1) / 2 = Z.of_nat k)%Z).
  { symmetry. apply (Z.div_unique _ 2 _ (poolSize s - count s + 1 - 2 * Z.of_nat k)); lia. }
  rewrite Gc, Gs, Hdiv. split; lia.
Qed.

(** ** A factory that fails during growth *)

(** C5: let growth be attempted ([s.count < s.poolSize]).  When the
    first call of the factory fails with [e], [GetConn] returns [e], the
    count, the queue and the store are as before, and the next [GetConn]
    starts growth from that same count: it calls the factory again,
    returns its error with the count still unchanged when it fails again,
    and counts one more connection when it connects.  When the factory
    fails with [e] after [k] connections were made, [GetConn] returns [e]
    and these [k] connections are counted, stored healthy and queued. *)
Theorem growth_failure_keeps_count (s : Server) (e : error) :
  inv s -> (count s < poolSize s)%Z ->
  (socketFactory s (dials s) = inr e ->
   exists s1 : Server,
     GetConn s = Done (inr e) s1 /\
     count s1 = count s /\ poolCh s1 = poolCh s /\ heap s1 = heap s /\
     dials s1 = S (dials s) /\
     dials s1 < dials (final (GetConn s1)) /\
     (forall e2, socketFactory s1 (dials s1) = inr e2 ->
        exists s2, GetConn s1 = Done (inr e2) s2 /\ count s2 = count s) /\
     (forall sock, socketFactory s1 (dials s1) = inl sock ->
        (count s + 1 <= count (final (GetConn s1)))%Z)) /\
  (forall s' : Server, grow s = Done (Some e) s' ->
     GetConn s = Done (inr e) s' /\
     exists k : nat,
       grown s s' k /\ dials s' = dials s + k + 1 /\
       socketFactory s (dials s + k) = inr e).
Proof.
  intros Hinv Hlt. split.
  - intros Hf. exists (snd (callSockFactory s)).
    pose proof (callSockFactory_frame s) as Hfr. simpl in Hfr.
    pose proof (ev_inv _ _ (callSockFactory_evolves s) Hinv) as Hinv1.
    destruct Hfr as (_ & Hd & Hc & Hp & Hh & Hq & _).
    assert (Hlt1 : (count (snd (callSockFactory s)) < poolSize (snd (callSockFactory s)))%Z)
      by (rewrite Hc, Hp; exact Hlt).
    split; [apply GetConn_first_dial_fails; auto |].
    destruct (GetConn_dials _ Hinv1 Hlt1) as (Hdial & Hgrow).
    repeat split; auto.
    + intros e2 Hf2. eexists. split; [apply GetConn_first_dial_fails; eauto |].
      pose proof (callSockFactory_frame (snd (callSockFactory s))) as Hfr2. simpl in Hfr2.
      destruct Hfr2 as (_ & _ & Hc2 & _). congruence.
    + intros sock Hf2. rewrite <- Hc. eauto.
  - intros s' Hg. split.
    + unfold GetConn. rewrite Hg. reflexivity.
    + rewrite (grow_growLoop s Hlt) in Hg.
      destruct (growLoop_trace _ 0 s (Some e) s' ltac:(lia) Hinv Hg) as (k & Hgr & Hd & Hf & _).
      exists k. auto.
Qed.

(** The scenario of the design document: pool size 1, the factory fails. *)
Lemma growth_failure_keeps_count_witness :
  inv (fresh dialNever 1 quiet) /\
  (count (fresh dialNever 1 quiet) < poolSize (fresh dialNever 1 quiet))%Z /\
  exists s1 : Server,
    GetConn (fresh dialNever 1 quiet) = Done (inr (Errno 1)) s1 /\
    count s1 = 0%Z /\ poolCh s1 = [] /\ heap s1 = [].
Proof.
  assert (Hinv : inv (fresh dialNever 1 quiet))
    by (constructor; vm_compute; try reflexivity; intros H; discriminate H).
  assert (Hlt : (count (fresh dialNever 1 quiet) < poolSize (fresh dialNever 1 quiet))%Z)
    by reflexivity.
  split; [exact Hinv |]. split; [exact Hlt |].
  destruct (growth_failure_keeps_count (fresh dialNever 1 quiet) (Errno 1) Hinv Hlt)
    as (Hfirst & _).
  destruct (Hfirst eq_refl) as (s1 & Hrun & Hc & Hq & Hh & _).
  exists s1. split; [exact Hrun |]. split; [exact Hc |]. split; [exact Hq | exact Hh].
Defined.

(** The factory connects twice and fails at the third call of the first
    growth of a pool of eight: the two connections stay pooled and
    counted. *)
Example growth_fails_partway :
  exists s' : Server,
    GetConn (fresh dialTwice 8 quiet) = Done (inr (Errno 1)) s' /\
    count s' = 2%Z /\ poolCh s' = [0; 1] /\
    heap s' = [Conn 0 false; Conn 1 false] /\ dials s' = 3.
Proof.
  exists (final (GetConn (fresh dialTwice 8 quiet))).
  split; [vm_compute; reflexivity |]. repeat split.
Qed.

(** ** Repair on checkout *)

(** C6: let [GetConn] get past growth and pop a connection [c] whose
    failing flag is set.  When the repair fails with [e], [GetConn]
    returns [e] and no connection, and [c] is at the back of the queue,
    unchanged and still failing.  When the repair succeeds, [GetConn]
    returns [c], which is out of the queue, holds the fresh transport and
    is not marked failing. *)
Theorem repair_on_checkout (s s0 : Server) (c : ptr) (q : list ptr) (k : conn) :
  grow s = Done None s0 ->
  poolCh s0 = c :: q -> heap s0 !! c = Some k -> failing k = true ->
  (Z.of_nat (length (poolCh s0)) <= poolCap s0)%Z ->
  (forall e, socketFactory s0 (dials s0) = inr e ->
     exists s' : Server,
       GetConn s = Done (inr e) s' /\ poolCh s' = q ++ [c] /\
       heap s' !! c = Some k /\ heap s' = heap s0) /\
  (forall sock, socketFactory s0 (dials s0) = inl sock ->
     exists s' : Server,
       GetConn s = Done (inl c) s' /\ poolCh s' = q /\
       heap s' !! c = Some (Conn sock false)).
Proof.
  intros Hgrow Hq Hc Hfail Hcap.
  assert (Hlen : c < length (heap s0)) by (eapply lookup_lt_Some; eauto).
  rewrite Hq in Hcap. simpl in Hcap.
  split.
  - intros e Hf.
    unfold GetConn. rewrite Hgrow. simpl. unfold takeConn, chanRecv. rewrite Hq. simpl.
    rewrite Hc, Hfail. unfold tryReconnIfFailed. simpl. rewrite Hc.
    unfold CallSockFactory, callSockFactory. simpl. rewrite Hf.
    destruct (SocketErrorHook s0); simpl;
      (rewrite chanSend_room by (simpl; lia)); simpl;
      eexists; (split; [reflexivity |]); simpl; auto.
  - intros sock Hf.
    unfold GetConn. rewrite Hgrow. simpl. unfold takeConn, chanRecv. rewrite Hq. simpl.
    rewrite Hc, Hfail. unfold tryReconnIfFailed. simpl. rewrite Hc.
    unfold CallSockFactory, callSockFactory. simpl. rewrite Hf. simpl.
    eexists. split; [reflexivity |]. simpl. split; [reflexivity |].
    apply list_lookup_insert_eq. exact Hlen.
Qed.

Lemma repair_on_checkout_witness :
  grow oneFailingIdle = Done None oneFailingIdle /\
  poolCh oneFailingIdle = [0] /\ heap oneFailingIdle !! 0 = Some (Conn 0 true) /\
  exists s' : Server,
    GetConn oneFailingIdle = Done (inr (Errno 1)) s' /\ poolCh s' = [] ++ [0] /\
    heap s' !! 0 = Some (Conn 0 true) /\ heap s' = heap oneFailingIdle.
Proof.
  assert (Hg : grow oneFailingIdle = Done None oneFailingIdle) by (vm_compute; reflexivity).
  assert (Hq : poolCh oneFailingIdle = [0]) by (vm_compute; reflexivity).
  assert (Hc : heap oneFailingIdle !! 0 = Some (Conn 0 true)) by (vm_compute; reflexivity).
  assert (Hcap : (Z.of_nat (length (poolCh oneFailingIdle)) <= poolCap oneFailingIdle)%Z)
    by (vm_compute; intros H; discriminate H).
  split; [exact Hg |]. split; [exact Hq |]. split; [exact Hc |].
  destruct (repair_on_checkout oneFailingIdle oneFailingIdle 0 [] (Conn 0 true)
              Hg Hq Hc eq_refl Hcap) as (Hfails & _).
  exact (Hfails (Errno 1) eq_refl).
Defined.

(** The other branch on a pool whose factory still connects. *)
Example repair_succeeds :
  exists s' : Server,
    GetConn oneFailingIdleRepairable = Done (inl 0) s' /\
    poolCh s' = [] /\ heap s' = [Conn 1 false].
Proof.
  exists (final (GetConn oneFailingIdleRepairable)).
  split; [vm_compute; reflexivity |]. split; vm_compute; reflexivity.
Qed.

(** ** Release after a detection call *)

Lemma takeConn_granted (s0 s1 : Server) (c : ptr) :
  takeConn s0 = Done (inl c) s1 ->
  exists q : list ptr,
    poolCh s0 = c :: q /\ poolCh s1 = q /\ poolCap s1 = poolCap s0 /\
    is_Some (heap s1 !! c).
Proof.
  unfold takeConn, chanRecv. destruct (poolCh s0) as [| c' q] eqn:Hq; [discriminate |].
  simpl. destruct (heap s0 !! c') as [k |] eqn:Hc; [| discriminate].
  assert (Hlen : c' < length (heap s0)) by (eapply lookup_lt_Some; eauto).
  destruct (failing k).
  - unfold tryReconnIfFailed. simpl. rewrite Hc.
    unfold CallSockFactory, callSockFactory. simpl.
    destruct (socketFactory s0 (dials s0)) as [sock | e]; simpl.
    + intros [= <- <-]. exists q. simpl. repeat split; auto.
      rewrite list_lookup_insert_eq by exact Hlen. eauto.
    + destruct (SocketErrorHook s0); simpl; unfold chanSend;
        destruct (_ <? _)%Z; simpl; discriminate.
  - intros [= <- <-]. exists q. simpl. repeat split; eauto.
Qed.

(** A connection that [GetConn] grants is a live pointer, and its place
    in the channel is free. *)
Lemma GetConn_granted (s s1 : Server) (c : ptr) :
  inv s -> GetConn s = Done (inl c) s1 ->
  (Z.of_nat (length (poolCh s1)) < poolCap s1)%Z /\ is_Some (heap s1 !! c).
Proof.
  intros Hinv. unfold GetConn.
  pose proof (grow_evolves s) as Hev.
  destruct (grow s) as [[e |] s0 | s0 | s0 | s0]; simpl in *; try discriminate.
  intros Htake. destruct (takeConn_granted _ _ _ Htake) as (q & Hq & Hq1 & Hcap & Hc).
  pose proof (inv_chan _ (ev_inv _ _ Hev Hinv)) as Hch.
  rewrite Hq in Hch. simpl in Hch. rewrite Hq1, Hcap. split; [lia | exact Hc].
Qed.

Lemma conn_exchange_live (c : ptr) (p : Payload) (s : Server) :
  is_Some (heap s !! c) ->
  exists s2 : Server,
    conn_exchange c p s = Done (remote (amb s) (ios s) p) s2 /\
    poolCh s2 = poolCh s /\ poolCap s2 = poolCap s.
Proof.
  intros [k Hk]. unfold conn_exchange. rewrite Hk.
  destruct (replyErr _); eexists; (split; [reflexivity |]); simpl; auto.
Qed.

Lemma deferred_PutConn_release {A : Type} (g : Reply -> A) (c : ptr) (p : Payload)
  (s1 : Server) :
  (Z.of_nat (length (poolCh s1)) < poolCap s1)%Z -> is_Some (heap s1 !! c) ->
  exists s2 : Server,
    deferred (PutConn c) (call (r, s') <- conn_exchange c p s1; Done (g r) s')
    = Done (g (remote (amb s1) (ios s1) p)) s2 /\
    poolCh s2 = poolCh s1 ++ [c].
Proof.
  intros Hroom Hc. destruct (conn_exchange_live c p s1 Hc) as (s2 & Hx & Hq & Hcap).
  rewrite Hx. simpl. unfold PutConn. rewrite chanSend_room by (rewrite Hq, Hcap; exact Hroom).
  simpl. eexists. split; [reflexivity |]. simpl. rewrite Hq. reflexivity.
Qed.

(** C7: when [GetConn] grants a connection [c], each of
    [DetectRequestInCtx], [DetectResponseInCtx], [DetectHttpRequest] and
    [DetectRequest] returns what the exchange on [c] returned, error or
    not, with [c] back at the end of the queue.  [Detect] puts [c] back
    when the exchange returned no error and leaves the queue as it was
    when it returned one. *)
Theorem detect_calls_release (s s1 : Server) (c : ptr) (p : Payload) :
  inv s -> GetConn s = Done (inl c) s1 ->
  let r := remote (amb s1) (ios s1) p in
  (exists s2, DetectRequestInCtx p s = Done (replyReq r, replyErr r) s2 /\
              poolCh s2 = poolCh s1 ++ [c]) /\
  (exists s2, DetectResponseInCtx p s = Done (replyRsp r, replyErr r) s2 /\
              poolCh s2 = poolCh s1 ++ [c]) /\
  (exists s2, DetectHttpRequest p s = Done (replyReq r, replyErr r) s2 /\
              poolCh s2 = poolCh s1 ++ [c]) /\
  (exists s2, DetectRequest p s = Done (replyReq r, replyErr r) s2 /\
              poolCh s2 = poolCh s1 ++ [c]) /\
  (exists s2, Detect p s = Done (replyReq r, replyRsp r, replyErr r) s2 /\
              poolCh s2 = match replyErr r with
                          | None => poolCh s1 ++ [c]
                          | Some _ => poolCh s1
                          end).
Proof.
  intros Hinv Hget r.
  destruct (GetConn_granted s s1 c Hinv Hget) as (Hroom & Hc).
  unfold DetectRequestInCtx, DetectResponseInCtx, DetectHttpRequest, DetectRequest, Detect.
  rewrite Hget. simpl.
  split; [apply (deferred_PutConn_release (fun r => (replyReq r, replyErr r))); auto |].
  split; [apply (deferred_PutConn_release (fun r => (replyRsp r, replyErr r))); auto |].
  split; [apply (deferred_PutConn_release (fun r => (replyReq r, replyErr r))); auto |].
  split; [apply (deferred_PutConn_release (fun r => (replyReq r, replyErr r))); auto |].
  unfold conn_Detect.
  destruct (conn_exchange_live c p s1 Hc) as (s2 & Hx & Hq & Hcap).
  rewrite Hx. simpl. fold r. destruct (replyErr r) as [e |].
  - exists s2. split; [reflexivity | exact Hq].
  - unfold PutConn. rewrite chanSend_room by (rewrite Hq, Hcap; exact Hroom).
    simpl. eexists. split; [reflexivity |]. simpl. rewrite Hq. reflexivity.
Qed.

(** On a peer whose exchanges fail: the one-way call still releases the
    connection, the two-way call keeps it out of the queue. *)
Lemma detect_calls_release_witness :
  inv (fresh dialAlways 1 deaf) /\
  GetConn (fresh dialAlways 1 deaf)
  = Done (inl 0) (final (GetConn (fresh dialAlways 1 deaf))) /\
  (exists s2, DetectRequestInCtx 0 (fresh dialAlways 1 deaf)
              = Done (None, Some (Errno 7)) s2 /\ poolCh s2 = [0]) /\
  (exists s2, Detect 0 (fresh dialAlways 1 deaf)
              = Done (None, None, Some (Errno 7)) s2 /\ poolCh s2 = []).
Proof.
  assert (Hinv : inv (fresh dialAlways 1 deaf))
    by (constructor; vm_compute; try reflexivity; intros H; discriminate H).
  assert (Hget : GetConn (fresh dialAlways 1 deaf)
                 = Done (inl 0) (final (GetConn (fresh dialAlways 1 deaf))))
    by (vm_compute; reflexivity).
  split; [exact Hinv |]. split; [exact Hget |].
  destruct (detect_calls_release (fresh dialAlways 1 deaf)
              (final (GetConn (fresh dialAlways 1 deaf))) 0 0 Hinv Hget)
    as (Hone & _ & _ & _ & Htwo).
  split; [exact Hone | exact Htwo].
Defined.

(** ** Shutdown grows the pool *)

Lemma growLoop_returns (fuel : nat) : forall (i : Z) (s : Server),
  (0 <= i)%Z -> inv s -> poolCap s = poolSize s ->
  (Z.of_nat (length (poolCh s)) <= count s)%Z ->
  always_connects (socketFactory s) ->
  (poolSize s - count s - i <= Z.of_nat fuel)%Z ->
  exists s' : Server, growLoop fuel i s = Done None s'.
Proof.
  induction fuel as [| fuel IH]; intros i s Hi Hinv Hcap Hlen Hall Hfuel;
    pose proof Hinv as [Hlo Hhi Hsz Hhp Hch]; simpl;
    rewrite (wrap64_id (poolSize s - count s)) by (unfold int64_range; lia).
  - destruct (Z.ltb_spec i (poolSize s - count s)); [lia | eauto].
  - destruct (Z.ltb_spec i (poolSize s - count s)) as [Hlt | Hge]; [| eauto].
    destruct (Hall (dials s)) as (sock & Hf).
    pose proof (newConn_evolves s) as Hev.
    rewrite (newConn_ok s sock Hf) in *.
    rewrite chanSend_room in * by (simpl; lia). simpl in *.
    rewrite wrap64_id by (unfold int64_range; lia).
    apply IH; simpl; auto; try lia.
    + refine (ev_inv _ _ (Hev _) Hinv). intros _. lia.
    + rewrite wrap64_id by (unfold int64_range; lia). rewrite length_app. simpl. lia.
    + rewrite wrap64_id by (unfold int64_range; lia). lia.
Qed.

Lemma grow_returns (s : Server) :
  inv s -> poolCap s = poolSize s ->
  (Z.of_nat (length (poolCh s)) <= count s)%Z ->
  always_connects (socketFactory s) ->
  exists (s0 : Server) (k : nat),
    grow s = Done None s0 /\ grown s s0 k /\ dials s0 = dials s + k.
Proof.
  intros Hinv Hcap Hlen Hall.
  destruct (Z.ltb_spec (count s) (poolSize s)) as [Hlt | Hge].
  - rewrite (grow_growLoop s Hlt).
    destruct (growLoop_returns (Z.to_nat (poolSize s - count s)) 0 s) as (s0 & Hrun);
      auto; try lia.
    destruct (growLoop_trace _ 0 s None s0 ltac:(lia) Hinv Hrun) as (k & Hg & Hd & _).
    exists s0, k. auto.
  - exists s, 0. unfold grow.
    destruct (Z.ltb_spec (count s) (poolSize s)); [lia |].
    split; [reflexivity |]. split; [apply grown_zero; auto | lia].
Qed.

Lemma closeLoop_drains (fuel : nat) : forall (i : Z) (s : Server),
  draining i s -> (poolSize s - i <= Z.of_nat fuel)%Z ->
  exists s' : Server,
    closeLoop fuel i s = Done tt s' /\ healthCheck s' = true /\
    closeCh s' = closeCh s /\
    forall c k, heap s' !! c = Some k -> In (socket k) (closedSocks s').
Proof.
  assert (Hend : forall i s, draining i s -> (count s <= i)%Z ->
            forall c k, heap s !! c = Some k -> In (socket k) (closedSocks s)).
  { intros i s [_ _ _ _ Hidle _ Hcover] Hle c k Hc.
    destruct (poolCh s) as [| c' q] eqn:Hq; [| simpl in Hidle; lia].
    destruct (Hcover c k Hc) as [[] | Hin]. exact Hin. }
  induction fuel as [| fuel IH]; intros i s Hdr Hfuel; simpl.
  - pose proof (dr_inv _ _ Hdr) as [Hlo Hhi Hsz Hhp Hch].
    destruct (Z.ltb_spec i (count s)); [lia |].
    eexists. split; [reflexivity |]. simpl. repeat split; auto. apply (Hend i); auto.
  - destruct (Z.ltb_spec i (count s)) as [Hlt | Hge].
    2:{ eexists. split; [reflexivity |]. simpl. repeat split; auto. apply (Hend i); auto. }
    pose proof Hdr as [Hinv Hcap Hfac Hi Hidle Hok Hcover].
    pose proof Hinv as [Hlo Hhi Hsz Hhp Hch].
    destruct (grow_returns s Hinv Hcap ltac:(lia) Hfac) as (s0 & k & Hgrow & Hgr & Hd).
    pose proof (grow_evolves s) as Hev. rewrite Hgrow in Hev. simpl in Hev.
    pose proof (ev_inv _ _ Hev Hinv) as [Hlo0 Hhi0 Hsz0 Hhp0 Hch0].
    destruct Hgr as [Gc Gp (new & Gh & Gn & Gnew) Gf Gs Gcap Gcl Ghe Gcs].
    destruct (poolCh s) as [| c q] eqn:Hq; [simpl in Hidle; lia |].
    destruct (Hok c (or_introl eq_refl)) as (kc & Hkc & Hfc).
    assert (Hkc0 : heap s0 !! c = Some kc).
    { rewrite Gh. apply lookup_app_l_Some. exact Hkc. }
    assert (Hget : GetConn s = Done (inl c) (set_poolCh (q ++ seq (length (heap s)) k) s0)).
    { unfold GetConn. rewrite Hgrow. simpl. unfold takeConn, chanRecv. rewrite Gp. simpl.
      rewrite Hkc0, Hfc. reflexivity. }
    rewrite Hget. simpl. unfold conn_Close. simpl. rewrite Hkc0. simpl.
    rewrite wrap64_id by (unfold int64_range; lia).
    simpl in Hidle.
    destruct (IH (i + 1)%Z
                (set_closedSocks (closedSocks s0 ++ [socket kc])
                   (set_poolCh (q ++ seq (length (heap s)) k) s0)))
      as (s' & Hrun & Hh & Hc' & Hall).
    + constructor; simpl; auto; try lia.
      * rewrite Gp in Hch0. simpl in Hch0. rewrite length_app in *.
        constructor; simpl; auto; try lia. rewrite length_app. lia.
      * rewrite Gf. exact Hfac.
      * rewrite length_app, length_seq. lia.
      * intros c' Hin. apply in_app_or in Hin. destruct Hin as [Hin | Hin].
        -- destruct (Hok c' (or_intror Hin)) as (k' & Hk' & Hf').
           exists k'. split; [| exact Hf']. rewrite Gh. apply lookup_app_l_Some. exact Hk'.
        -- apply in_seq in Hin. destruct (Gnew (c' - length (heap s))) as (sock & _ & Hn);
             [lia |].
           exists (Conn sock false). split; [| reflexivity].
           rewrite Gh, lookup_app_r by lia. exact Hn.
      * intros c' k' Hk'. rewrite Gh in Hk'.
        apply lookup_app_Some in Hk'. destruct Hk' as [Hk' | (Hge' & Hk')].
        -- destruct (Hcover c' k' Hk') as [[<- | Hin] | Hin].
           ++ right. apply in_or_app. right. left.
              pose proof (eq_trans (eq_sym Hkc) Hk') as He. injection He as <-. reflexivity.
           ++ left. apply in_or_app. left. exact Hin.
           ++ right. rewrite Gcs. apply in_or_app. left. exact Hin.
        -- left. apply in_or_app. right. apply in_seq.
           apply lookup_lt_Some in Hk'. lia.
    + simpl. lia.
    + exists s'. split; [exact Hrun |]. split; [exact Hh |]. split; [| exact Hall].
      rewrite Hc'. simpl. exact Gcl.
Qed.

(** C10, as amended: let [Close] run on an open pool whose count is
    above zero and below the pool size.  The [GetConn] of the first drain
    iteration calls the socket factory, so shutdown makes at least one
    more factory call; when that call connects, a connection that did not
    exist before is created and counted during shutdown.  When the
    factory keeps connecting and every connection is idle and healthy,
    [Close] returns with the transport of every connection closed, those
    it created included, and with the Health-Check Service closed. *)
Theorem Close_grows_pool (s : Server) :
  inv s -> closeCh s = false -> (0 < count s < poolSize s)%Z ->
  dials s < dials (final (Close s)) /\
  (forall sock, socketFactory s (dials s) = inl sock ->
     (count s < count (final (Close s)))%Z /\
     length (heap s) < length (heap (final (Close s)))) /\
  (always_connects (socketFactory s) -> idle_healthy s ->
     exists s' : Server,
       Close s = Done tt s' /\ (count s < count s')%Z /\ healthCheck s' = true /\
       forall c k, heap s' !! c = Some k -> In (socket k) (closedSocks s')).
Proof.
  intros Hinv Hopen [Hpos Hlt].
  pose proof Hinv as [Hlo Hhi Hsz Hhp Hch].
  assert (Hinv1 : inv (set_closeCh true s)) by (constructor; simpl; auto).
  assert (HClose : Close s
                   = closeLoop (Z.to_nat (Z.max (poolSize s) (count s))) 0 (set_closeCh true s)).
  { unfold Close. rewrite Hopen. reflexivity. }
  assert (Hev : evolves (final (GetConn (set_closeCh true s))) (final (Close s))).
  { rewrite HClose.
    destruct (Z.to_nat (Z.max (poolSize s) (count s))) as [| n] eqn:Hn; [lia |].
    simpl. destruct (Z.ltb_spec 0 (count s)); [| lia].
    apply evolves_final_bind. intros [c | e] s1; [| apply evolves_refl].
    apply evolves_bind; [apply conn_Close_evolves |].
    intros [] s2 _. apply closeLoop_evolves. }
  destruct (GetConn_dials (set_closeCh true s) Hinv1 Hlt) as (Hd & Hgrow).
  pose proof (ev_inv _ _ (GetConn_evolves _) Hinv1) as Hinv2.
  assert (Hnew : forall sock, socketFactory s (dials s) = inl sock ->
            (count s < count (final (Close s)))%Z /\
            length (heap s) < length (heap (final (Close s)))).
  { intros sock Hf. specialize (Hgrow sock Hf). simpl in Hgrow.
    pose proof (ev_count _ _ Hev Hinv2) as Hc.
    pose proof (inv_heap _ (ev_inv _ _ Hev Hinv2)) as Hh.
    split; lia. }
  split; [| split].
  - pose proof (ev_dials _ _ Hev) as Hd'. simpl in Hd. lia.
  - exact Hnew.
  - intros Hall [Icap Iall Iok Icover].
    destruct (closeLoop_drains (Z.to_nat (Z.max (poolSize s) (count s))) 0 (set_closeCh true s))
      as (s' & Hrun & Hh & _ & Hclosed).
    + constructor; simpl; auto; try lia.
      intros c k Hk. left. eauto.
    + simpl. lia.
    + destruct (Hall (dials s)) as (sock & Hf).
      destruct (Hnew sock Hf) as (Hcnt & _).
      rewrite HClose, Hrun in Hcnt. simpl in Hcnt.
      exists s'. rewrite HClose. auto.
Qed.

Lemma Close_grows_pool_witness :
  inv (oneIdleOfTwo dialAlways) /\
  closeCh (oneIdleOfTwo dialAlways) = false /\
  (0 < count (oneIdleOfTwo dialAlways) < poolSize (oneIdleOfTwo dialAlways))%Z /\
  dials (oneIdleOfTwo dialAlways) < dials (final (Close (oneIdleOfTwo dialAlways))) /\
  exists s' : Server,
    Close (oneIdleOfTwo dialAlways) = Done tt s' /\
    (count (oneIdleOfTwo dialAlways) < count s')%Z /\ healthCheck s' = true /\
    forall c k, heap s' !! c = Some k -> In (socket k) (closedSocks s').
Proof.
  assert (Hinv : inv (oneIdleOfTwo dialAlways))
    by (constructor; vm_compute; try reflexivity; intros H; discriminate H).
  assert (Hopen : closeCh (oneIdleOfTwo dialAlways) = false) by (vm_compute; reflexivity).
  assert (Hrange : (0 < count (oneIdleOfTwo dialAlways)
                    < poolSize (oneIdleOfTwo dialAlways))%Z)
    by (split; vm_compute; reflexivity).
  assert (Hall : always_connects (socketFactory (oneIdleOfTwo dialAlways)))
    by (intros j; exists j; vm_compute; reflexivity).
  assert (Hidle : idle_healthy (oneIdleOfTwo dialAlways)).
  { constructor.
    - vm_compute. reflexivity.
    - vm_compute. reflexivity.
    - intros c Hin. vm_compute in Hin. destruct Hin as [<- | []].
      exists (Conn 0 false). split; vm_compute; reflexivity.
    - intros c k Hk. vm_compute. left.
      destruct c as [| c]; [reflexivity |]. vm_compute in Hk. discriminate Hk. }
  split; [exact Hinv |]. split; [exact Hopen |]. split; [exact Hrange |].
  destruct (Close_grows_pool (oneIdleOfTwo dialAlways) Hinv Hopen Hrange)
    as (Hd & _ & Hdrain).
  split; [exact Hd | exact (Hdrain Hall Hidle)].
Defined.

(** C10 as stated fails at a count of zero: the drain loop of [Close] on
    a pool that was never used has no iteration, so no [GetConn] and no
    factory call is made although the count is below the pool size. *)
Lemma Close_of_unused_pool_dials_nothing :
  (count (fresh dialAlways 2 quiet) < poolSize (fresh dialAlways 2 quiet))%Z /\
  exists s' : Server,
    Close (fresh dialAlways 2 quiet) = Done tt s' /\
    dials s' = dials (fresh dialAlways 2 quiet) /\ dials s' = 0 /\
    heap s' = [] /\ healthCheck s' = true.
Proof.
  split; [reflexivity |].
  exists (final (Close (fresh dialAlways 2 quiet))).
  split; [vm_compute; reflexivity |]. repeat split.
Qed.

(** * More of the pool *)

(** ** Fields that the pool operations do not assign *)

Section Frame.

Variable R : Server -> Server -> Prop.
Hypothesis R_refl : forall s, R s s.
Hypothesis R_trans : forall s1 s2 s3, R s1 s2 -> R s2 s3 -> R s1 s3.
Hypothesis R_poolCh : forall q s, R s (set_poolCh q s).
Hypothesis R_dials : forall n s, R s (set_dials n s).
Hypothesis R_hookLog : forall l s, R s (set_hookLog l s).
Hypothesis R_heap : forall h s, R s (set_heap h s).
Hypothesis R_count : forall n s, R s (set_count n s).
Hypothesis R_ios : forall n s, R s (set_ios n s).

Lemma frame_bind {A B : Type} (m : outcome A) (k : A -> Server -> outcome B) (s : Server) :
  R s (final m) -> (forall a s1, R s1 (final (k a s1))) -> R s (final (bind m k)).
Proof using R_trans.
  intros Hm Hk. destruct m; simpl in *; auto. eapply R_trans; eauto.
Qed.

Lemma chanSend_frame (c : ptr) (s : Server) : R s (final (chanSend c s)).
Proof using R_refl R_poolCh.
  unfold chanSend. destruct (_ <? _)%Z; simpl; auto.
Qed.

Lemma chanRecv_frame (s : Server) : R s (final (chanRecv s)).
Proof using R_refl R_poolCh.
  unfold chanRecv. destruct (poolCh s); simpl; auto.
Qed.

Lemma callSockFactory_frame_R (s : Server) : R s (snd (callSockFactory s)).
Proof using R_trans R_dials R_hookLog.
  unfold callSockFactory. destruct (socketFactory s (dials s)); simpl; auto.
  destruct (SocketErrorHook s); simpl; auto.
  eapply R_trans; [apply R_dials | apply R_hookLog].
Qed.

Lemma newConn_frame (s : Server) : R s (final (newConn s)).
Proof using R_refl R_trans R_poolCh R_dials R_hookLog R_heap R_count.
  unfold newConn, CallSockFactory.
  pose proof (callSockFactory_frame_R s) as Hf.
  destruct (callSockFactory s) as [[sock | err] s1]; simpl in *; auto.
  eapply R_trans; [exact Hf |].
  apply frame_bind; [| intros [] s4; apply R_refl].
  eapply R_trans; [| apply chanSend_frame].
  eapply R_trans; [apply (R_count (wrap64 (count s1 + 1))) |].
  apply (R_heap (heap s1 ++ [Conn sock false]) (set_count (wrap64 (count s1 + 1)) s1)).
Qed.

Lemma growLoop_frame (fuel : nat) : forall (i : Z) (s : Server),
  R s (final (growLoop fuel i s)).
Proof using R_refl R_trans R_poolCh R_dials R_hookLog R_heap R_count.
  induction fuel as [| fuel IH]; intros i s; simpl;
    destruct (i <? wrap64 (poolSize s - count s))%Z; auto.
  apply frame_bind; [apply newConn_frame |].
  intros [e |] s1; simpl; auto.
Qed.

Lemma grow_frame (s : Server) : R s (final (grow s)).
Proof using R_refl R_trans R_poolCh R_dials R_hookLog R_heap R_count.
  unfold grow. destruct (count s <? poolSize s)%Z; auto. apply growLoop_frame.
Qed.

Lemma tryReconnIfFailed_frame (c : ptr) (s : Server) :
  R s (final (tryReconnIfFailed c s)).
Proof using R_refl R_trans R_dials R_hookLog R_heap.
  unfold tryReconnIfFailed, CallSockFactory. destruct (heap s !! c); auto.
  pose proof (callSockFactory_frame_R s) as Hf.
  destruct (callSockFactory s) as [[sock | err] s1]; simpl in *; auto.
  eapply R_trans; [exact Hf | apply R_heap].
Qed.

Lemma takeConn_frame (s : Server) : R s (final (takeConn s)).
Proof using R_refl R_trans R_poolCh R_dials R_hookLog R_heap.
  unfold takeConn. apply frame_bind; [apply chanRecv_frame |].
  intros c s1. destruct (heap s1 !! c) as [k |]; auto.
  destruct (failing k); auto.
  apply frame_bind; [apply tryReconnIfFailed_frame |].
  intros [e |] s2; auto.
  apply frame_bind; [apply chanSend_frame |]. intros [] s3. apply R_refl.
Qed.

Lemma GetConn_frame (s : Server) : R s (final (GetConn s)).
Proof using R_refl R_trans R_poolCh R_dials R_hookLog R_heap R_count.
  unfold GetConn. apply frame_bind; [apply grow_frame |].
  intros [e |] s1; [apply R_refl | apply takeConn_frame].
Qed.

Lemma conn_exchange_frame (c : ptr) (p : Payload) (s : Server) :
  R s (final (conn_exchange c p s)).
Proof using R_refl R_trans R_heap R_ios.
  unfold conn_exchange. destruct (heap s !! c) as [k |]; auto.
  destruct (replyErr _); simpl; auto.
  eapply R_trans; [apply (R_ios (S (ios s))) |].
  apply (R_heap (<[c := Conn (socket k) true]> (heap s)) (set_ios (S (ios s)) s)).
Qed.

Lemma conn_Heartbeat_frame (c : ptr) (s : Server) :
  R s (final (conn_Heartbeat c s)).
Proof using R_refl R_trans R_heap R_ios.
  unfold conn_Heartbeat. destruct (heap s !! c) as [k |]; auto.
  destruct (pong _ _); simpl; auto.
  eapply R_trans; [apply (R_ios (S (ios s))) |].
  apply (R_heap (<[c := Conn (socket k) true]> (heap s)) (set_ios (S (ios s)) s)).
Qed.

Lemma released_call_frame {A : Type} (g : Reply -> A) (c : ptr) (p : Payload) (s : Server) :
  R s (final (deferred (PutConn c) (call (r, s1) <- conn_exchange c p s; Done (g r) s1))).
Proof using R_refl R_trans R_poolCh R_heap R_ios.
  pose proof (conn_exchange_frame c p s) as Hx.
  destruct (conn_exchange c p s) as [r s1 | s1 | s1 | s1]; simpl in *; auto.
  - eapply R_trans; [exact Hx |]. unfold PutConn.
    pose proof (chanSend_frame c s1) as Hs. destruct (chanSend c s1); simpl in *; auto.
  - eapply R_trans; [exact Hx |]. unfold PutConn.
    pose proof (chanSend_frame c s1) as Hs. destruct (chanSend c s1); simpl in *; auto.
Qed.

Lemma broadcastHeartbeat_frame (fuel : nat) : forall s : Server,
  R s (final (broadcastHeartbeat fuel s)).
Proof using R_refl R_trans R_poolCh R_heap R_ios.
  induction fuel as [| fuel IH]; intros s; simpl.
  - destruct (poolCh s); apply R_refl.
  - destruct (poolCh s) as [| c q]; [apply R_refl |]. simpl.
    destruct (heap s !! c) as [k |]; [| apply R_poolCh].
    eapply R_trans; [apply (R_poolCh q) |].
    apply frame_bind.
    + destruct (failing k); simpl; [apply R_refl | apply conn_Heartbeat_frame].
    + intros [] s2. apply frame_bind; [apply chanSend_frame |]. intros [] s3. apply IH.
Qed.

Lemma pool_op_frame (o : op) (s : Server) :
  match o with
  | OpClose | OpUpdateSockFactory _ | OpUpdateSockErrorHandler _ => True
  | _ => R s (exec o s)
  end.
Proof using R_refl R_trans R_poolCh R_dials R_hookLog R_heap R_count R_ios.
  destruct o; simpl; auto.
  - apply GetConn_frame.
  - apply chanSend_frame.
  - apply conn_exchange_frame.
  - apply frame_bind; [apply GetConn_frame |].
    intros [c | e] s1; [apply released_call_frame | apply R_refl].
  - apply frame_bind; [apply GetConn_frame |].
    intros [c | e] s1; [apply released_call_frame | apply R_refl].
  - apply frame_bind; [apply GetConn_frame |].
    intros [c | e] s1; [| apply R_refl].
    apply frame_bind.
    + apply frame_bind; [apply conn_exchange_frame | intros r s2; apply R_refl].
    + intros ret s2. destruct (snd ret); [apply R_refl |].
      apply frame_bind; [apply chanSend_frame | intros [] s3; apply R_refl].
  - apply frame_bind; [apply GetConn_frame |].
    intros [c | e] s1; [apply released_call_frame | apply R_refl].
  - apply frame_bind; [apply GetConn_frame |].
    intros [c | e] s1; [apply released_call_frame | apply R_refl].
  - apply broadcastHeartbeat_frame.
Qed.

End Frame.

Lemma untouched_refl (s : Server) : untouched s s.
Proof. constructor; reflexivity. Qed.

Lemma untouched_trans (s1 s2 s3 : Server) :
  untouched s1 s2 -> untouched s2 s3 -> untouched s1 s3.
Proof. intros [] []. constructor; congruence. Qed.

Lemma pool_op_untouched (o : op) (s : Server) :
  match o with
  | OpClose | OpUpdateSockFactory _ | OpUpdateSockErrorHandler _ => True
  | _ => untouched s (exec o s)
  end.
Proof.
  apply (pool_op_frame untouched untouched_refl untouched_trans);
    intros; constructor; reflexivity.
Qed.

Lemma closeLoop_closeCh (fuel : nat) : forall (i : Z) (s : Server),
  closeCh (final (closeLoop fuel i s)) = closeCh s.
Proof.
  induction fuel as [| fuel IH]; intros i s; simpl;
    destruct (i <? count s)%Z; simpl; auto.
  pose proof (GetConn_frame untouched untouched_refl untouched_trans
                ltac:(intros; constructor; reflexivity)
                ltac:(intros; constructor; reflexivity)
                ltac:(intros; constructor; reflexivity)
                ltac:(intros; constructor; reflexivity)
                ltac:(intros; constructor; reflexivity) s) as Hg.
  destruct (GetConn s) as [[c | e] s1 | s1 | s1 | s1]; simpl in *;
    try apply (un_closeCh _ _ Hg).
  unfold conn_Close. destruct (heap s1 !! c) as [k |]; simpl;
    [| apply (un_closeCh _ _ Hg)].
  rewrite IH. simpl. apply (un_closeCh _ _ Hg).
Qed.

Lemma exec_keeps_closed (o : op) (s : Server) :
  closeCh s = true -> closeCh (exec o s) = true.
Proof.
  intros Hc. pose proof (pool_op_untouched o s) as Hu.
  destruct o; try (rewrite (un_closeCh _ _ Hu); exact Hc); simpl.
  - unfold Close. rewrite Hc. exact Hc.
  - exact Hc.
  - exact Hc.
Qed.

(** Shutdown cannot be undone or repeated: [Close] leaves [closeCh]
    closed however it ends, no later operation opens it again, and every
    later [Close] panics on [close(s.closeCh)] with the state as it
    was. *)
Theorem shutdown_is_final (s : Server) (ops : list op) :
  closeCh (final (Close s)) = true /\
  closeCh (run ops (final (Close s))) = true /\
  Close (run ops (final (Close s))) = Panicked (run ops (final (Close s))).
Proof.
  assert (H1 : closeCh (final (Close s)) = true).
  { unfold Close. destruct (closeCh s) eqn:Hc; simpl; [exact Hc |].
    rewrite closeLoop_closeCh. reflexivity. }
  assert (H2 : forall ops s', closeCh s' = true -> closeCh (run ops s') = true).
  { clear. induction ops as [| o ops IH]; intros s' Hc; simpl; [exact Hc |].
    apply IH. apply exec_keeps_closed. exact Hc. }
  split; [exact H1 |]. split; [apply H2; exact H1 |].
  pose proof (H2 ops _ H1) as H3.
  set (s' := run ops (final (Close s))) in *.
  unfold Close. rewrite H3. reflexivity.
Qed.

(** ** More on the heartbeat sweep *)

Lemma unchanged_pool_refl (s : Server) : unchanged_pool s s.
Proof. constructor; reflexivity. Qed.

Lemma unchanged_pool_trans (s1 s2 s3 : Server) :
  unchanged_pool s1 s2 -> unchanged_pool s2 s3 -> unchanged_pool s1 s3.
Proof. intros [] []. constructor; congruence. Qed.

Lemma live_lookup (s : Server) (c : ptr) :
  c < length (heap s) -> exists k : conn, heap s !! c = Some k.
Proof.
  intros Hc. destruct (heap s !! c) as [k |] eqn:Hk; [eauto |].
  apply lookup_ge_None_1 in Hk. lia.
Qed.

(** One ping of a live connection: the store keeps its size, the queue
    is not touched. *)
Lemma conn_Heartbeat_live (c : ptr) (s : Server) :
  c < length (heap s) ->
  exists s2 : Server,
    conn_Heartbeat c s = Done tt s2 /\ unchanged_pool s s2 /\ poolCh s2 = poolCh s /\
    forall c', c' <> c -> heap s2 !! c' = heap s !! c'.
Proof.
  intros Hc. unfold conn_Heartbeat.
  destruct (live_lookup s c Hc) as (k & Hk). rewrite Hk.
  destruct (pong _ _); eexists; (split; [reflexivity |]); simpl.
  - split; [constructor; simpl; auto; apply length_insert |].
    split; [reflexivity |]. intros c' Hne. apply list_lookup_insert_ne. auto.
  - split; [constructor; reflexivity |]. auto.
Qed.

(** The sweep only moves connections around: at whatever iteration it is
    cut, no connection was created, dialed or closed, the count is what
    it was, and the queue holds the connections it held, rotated. *)
Theorem sweep_keeps_the_pool (fuel : nat) : forall s : Server,
  queue_live s -> (Z.of_nat (length (poolCh s)) <= poolCap s)%Z ->
  unchanged_pool s (final (broadcastHeartbeat fuel s)) /\
  Permutation (poolCh s) (poolCh (final (broadcastHeartbeat fuel s))) /\
  queue_live (final (broadcastHeartbeat fuel s)).
Proof.
  assert (Hbase : forall s, queue_live s ->
            unchanged_pool s s /\ Permutation (poolCh s) (poolCh s) /\ queue_live s).
  { intros s Hlive. split; [apply unchanged_pool_refl |]. split; [reflexivity | exact Hlive]. }
  induction fuel as [| fuel IH]; intros s Hlive Hcap.
  - replace (final (broadcastHeartbeat 0 s)) with s
      by (simpl; destruct (poolCh s); reflexivity).
    apply Hbase. exact Hlive.
  - simpl. destruct (poolCh s) as [| c q] eqn:Hq; simpl;
      [rewrite <- Hq; apply Hbase; exact Hlive |].
    unfold queue_live in Hlive. rewrite Hq in Hlive.
    apply Forall_cons in Hlive. destruct Hlive as (Hc & Hlive).
    destruct (live_lookup s c Hc) as (k & Hk). rewrite Hk.
    assert (Hstep : exists s2 : Server,
               (if negb (failing k) then conn_Heartbeat c (set_poolCh q s)
                else Done tt (set_poolCh q s)) = Done tt s2 /\
               unchanged_pool s s2 /\ poolCh s2 = q).
    { destruct (failing k); simpl.
      - eexists. split; [reflexivity |]. split; [constructor |]; reflexivity.
      - destruct (conn_Heartbeat_live c (set_poolCh q s) Hc) as (s2 & Hrun & Hun & Hq2 & _).
        exists s2. split; [exact Hrun |]. split; [| exact Hq2].
        destruct Hun. constructor; assumption. }
    destruct Hstep as (s2 & Hrun & Hun & Hq2). rewrite Hrun. simpl.
    simpl in Hcap. unfold PutConn.
    rewrite chanSend_room by (rewrite Hq2, (up_cap _ _ Hun); lia). simpl.
    destruct (IH (set_poolCh (poolCh s2 ++ [c]) s2)) as (Hun' & Hperm & Hlive').
    + unfold queue_live. simpl. rewrite Hq2, (up_heap _ _ Hun).
      apply Forall_app. split; [exact Hlive | repeat constructor; exact Hc].
    + simpl. rewrite Hq2, length_app, (up_cap _ _ Hun). simpl. lia.
    + split; [| split; [| exact Hlive']].
      * eapply unchanged_pool_trans; [| exact Hun'].
        destruct Hun. constructor; assumption.
      * etransitivity; [| exact Hperm]. simpl. rewrite Hq2.
        apply Permutation_cons_append.
Qed.

Lemma sweep_keeps_the_pool_witness :
  queue_live oneIdleOfOne /\
  (Z.of_nat (length (poolCh oneIdleOfOne)) <= poolCap oneIdleOfOne)%Z /\
  unchanged_pool oneIdleOfOne (final (broadcastHeartbeat 3 oneIdleOfOne)) /\
  Permutation (poolCh oneIdleOfOne) (poolCh (final (broadcastHeartbeat 3 oneIdleOfOne))) /\
  queue_live (final (broadcastHeartbeat 3 oneIdleOfOne)).
Proof.
  assert (Hlive : queue_live oneIdleOfOne).
  { unfold queue_live. vm_compute. repeat constructor. }
  assert (Hcap : (Z.of_nat (length (poolCh oneIdleOfOne)) <= poolCap oneIdleOfOne)%Z)
    by (vm_compute; intros H; discriminate H).
  split; [exact Hlive |]. split; [exact Hcap |].
  exact (sweep_keeps_the_pool 3 oneIdleOfOne Hlive Hcap).
Defined.

(** The sweep returns exactly when nothing is idle, and then it has done
    nothing. *)
Theorem sweep_returns_iff_nothing_idle (fuel : nat) (s : Server) :
  ((exists s' : Server, broadcastHeartbeat fuel s = Done tt s') <-> poolCh s = []) /\
  (poolCh s = [] -> broadcastHeartbeat fuel s = Done tt s).
Proof.
  assert (Hempty : poolCh s = [] -> broadcastHeartbeat fuel s = Done tt s).
  { intros Hq. destruct fuel; simpl; rewrite Hq; reflexivity. }
  split; [| exact Hempty]. split.
  - intros (s' & Hrun). destruct (poolCh s) as [| c q] eqn:Hq; [reflexivity |].
    exfalso. apply (sweep_never_returns fuel s tt s'); [rewrite Hq; discriminate | exact Hrun].
  - intros Hq. exists s. auto.
Qed.

(** A connection that is checked out is not touched by the sweep: what
    is stored at a pointer outside the queue is what it was, at whatever
    iteration the sweep is cut. *)
Theorem sweep_spares_checked_out (fuel : nat) : forall (s : Server) (c : ptr),
  ~ In c (poolCh s) ->
  heap (final (broadcastHeartbeat fuel s)) !! c = heap s !! c /\
  ~ In c (poolCh (final (broadcastHeartbeat fuel s))).
Proof.
  induction fuel as [| fuel IH]; intros s c Hout.
  - replace (final (broadcastHeartbeat 0 s)) with s
      by (simpl; destruct (poolCh s); reflexivity).
    auto.
  - simpl. destruct (poolCh s) as [| c0 q] eqn:Hq; simpl; [rewrite Hq; auto |].
    assert (Hne : c <> c0) by (intros ->; apply Hout; left; reflexivity).
    assert (Hq' : ~ In c q) by (intros Hin; apply Hout; right; exact Hin).
    destruct (heap s !! c0) as [k |] eqn:Hk; simpl; [| auto].
    assert (Hstep : exists s2 : Server,
               (if negb (failing k) then conn_Heartbeat c0 (set_poolCh q s)
                else Done tt (set_poolCh q s)) = Done tt s2 /\
               heap s2 !! c = heap s !! c /\ poolCh s2 = q).
    { destruct (failing k); simpl.
      - eexists. split; [reflexivity |]. split; reflexivity.
      - destruct (conn_Heartbeat_live c0 (set_poolCh q s)) as (s2 & Hrun & _ & Hq2 & Hh).
        + simpl. eapply lookup_lt_Some. exact Hk.
        + exists s2. split; [exact Hrun |]. split; [| exact Hq2]. apply Hh. exact Hne. }
    destruct Hstep as (s2 & Hrun & Hh & Hq2). rewrite Hrun. simpl.
    unfold PutConn, chanSend.
    destruct (Z.of_nat (length (poolCh s2)) <? poolCap s2)%Z; simpl.
    + destruct (IH (set_poolCh (poolCh s2 ++ [c0]) s2) c) as (Hh' & Hout').
      * simpl. rewrite Hq2. intros Hin. apply in_app_or in Hin.
        destruct Hin as [Hin | [Heq | []]]; [apply Hq'; exact Hin | apply Hne; auto].
      * split; [rewrite Hh'; simpl; exact Hh | exact Hout'].
    + split; [exact Hh | rewrite Hq2; exact Hq'].
Qed.

Lemma sweep_spares_checked_out_witness :
  ~ In 0 (poolCh oneOutOneIdle) /\
  heap (final (broadcastHeartbeat 4 oneOutOneIdle)) !! 0
  = heap oneOutOneIdle !! 0 /\
  ~ In 0 (poolCh (final (broadcastHeartbeat 4 oneOutOneIdle))).
Proof.
  assert (Hout : ~ In 0 (poolCh oneOutOneIdle))
    by (vm_compute; intros [H | []]; discriminate H).
  split; [exact Hout |].
  exact (sweep_spares_checked_out 4 oneOutOneIdle 0 Hout).
Defined.

(** A connection marked failing is not pinged: while every idle
    connection is failing, the sweep makes no exchange with the peer and
    changes no connection. *)
Theorem sweep_skips_failing (fuel : nat) : forall s : Server,
  (forall c, In c (poolCh s) -> exists k, heap s !! c = Some k /\ failing k = true) ->
  ios (final (broadcastHeartbeat fuel s)) = ios s /\
  heap (final (broadcastHeartbeat fuel s)) = heap s.
Proof.
  induction fuel as [| fuel IH]; intros s Hall.
  - replace (final (broadcastHeartbeat 0 s)) with s
      by (simpl; destruct (poolCh s); reflexivity).
    auto.
  - simpl. destruct (poolCh s) as [| c q] eqn:Hq; simpl; [auto |].
    destruct (Hall c (or_introl eq_refl)) as (k & Hk & Hf). rewrite Hk, Hf. simpl.
    unfold PutConn, chanSend. simpl.
    destruct (Z.of_nat (length q) <? poolCap s)%Z; simpl; [| auto].
    destruct (IH (set_poolCh (q ++ [c]) (set_poolCh q s))) as (Hi & Hh).
    + simpl. intros c' Hin. apply Hall. apply in_app_or in Hin.
      destruct Hin as [Hin | [<- | []]]; [right; exact Hin | left; reflexivity].
    + split; [rewrite Hi | rewrite Hh]; reflexivity.
Qed.

Lemma sweep_skips_failing_witness :
  (forall c, In c (poolCh oneFailingIdle) ->
             exists k, heap oneFailingIdle !! c = Some k /\ failing k = true) /\
  ios (final (broadcastHeartbeat 5 oneFailingIdle)) = ios oneFailingIdle /\
  heap (final (broadcastHeartbeat 5 oneFailingIdle)) = heap oneFailingIdle.
Proof.
  assert (Hall : forall c, In c (poolCh oneFailingIdle) ->
                   exists k, heap oneFailingIdle !! c = Some k /\ failing k = true).
  { intros c Hin. vm_compute in Hin. destruct Hin as [<- | []].
    exists (Conn 0 true). split; vm_compute; reflexivity. }
  split; [exact Hall |].
  exact (sweep_skips_failing 5 oneFailingIdle Hall).
Defined.
Example oneOutOneIdle_shape :
  poolCh oneOutOneIdle = [1] /\ length (heap oneOutOneIdle) = 2 /\
  heap (final (broadcastHeartbeat 4 oneOutOneIdle)) = [Conn 0 false; Conn 1 true].
Proof. repeat split. Qed.

(** ** Acquire and release *)

Lemma grow_at_size (s : Server) : (poolSize s <= count s)%Z -> grow s = Done None s.
Proof.
  intros Hge. unfold grow. destruct (Z.ltb_spec (count s) (poolSize s)); [lia | reflexivity].
Qed.

Lemma GetConn_healthy_head (s : Server) (c : ptr) (q : list ptr) (k : conn) :
  (poolSize s <= count s)%Z -> poolCh s = c :: q ->
  heap s !! c = Some k -> failing k = false ->
  GetConn s = Done (inl c) (set_poolCh q s).
Proof.
  intros Hge Hq Hk Hf. unfold GetConn. rewrite (grow_at_size s Hge). simpl.
  unfold takeConn, chanRecv. rewrite Hq. simpl. rewrite Hk, Hf. reflexivity.
Qed.

Lemma GetConn_nothing_idle (s : Server) :
  (poolSize s <= count s)%Z -> poolCh s = [] -> GetConn s = Parked s.
Proof.
  intros Hge Hq. unfold GetConn. rewrite (grow_at_size s Hge). simpl.
  unfold takeConn, chanRecv. rewrite Hq. reflexivity.
Qed.

(** On a pool that has reached its size, taking the healthy connection
    at the head of the queue and releasing it changes nothing but the
    order of the queue: the connection moves from the head to the back,
    and neither call blocks or dials. *)
Theorem acquire_release_rotates (s : Server) (c : ptr) (q : list ptr) (k : conn) :
  (poolSize s <= count s)%Z -> poolCh s = c :: q ->
  heap s !! c = Some k -> failing k = false ->
  (Z.of_nat (length (poolCh s)) <= poolCap s)%Z ->
  GetConn s = Done (inl c) (set_poolCh q s) /\
  PutConn c (set_poolCh q s) = Done tt (set_poolCh (q ++ [c]) s).
Proof.
  intros Hge Hq Hk Hf Hcap. split; [eapply GetConn_healthy_head; eauto |].
  rewrite Hq in Hcap. simpl in Hcap.
  unfold PutConn. rewrite chanSend_room by (simpl; lia). reflexivity.
Qed.

Lemma acquire_release_rotates_witness :
  (poolSize oneIdleOfOne <= count oneIdleOfOne)%Z /\
  poolCh oneIdleOfOne = [0] /\
  GetConn oneIdleOfOne = Done (inl 0) (set_poolCh [] oneIdleOfOne) /\
  PutConn 0 (set_poolCh [] oneIdleOfOne) = Done tt (set_poolCh ([] ++ [0]) oneIdleOfOne).
Proof.
  assert (Hge : (poolSize oneIdleOfOne <= count oneIdleOfOne)%Z)
    by (vm_compute; intros H; discriminate H).
  assert (Hq : poolCh oneIdleOfOne = [0]) by (vm_compute; reflexivity).
  assert (Hk : heap oneIdleOfOne !! 0 = Some (Conn 0 false)) by (vm_compute; reflexivity).
  assert (Hcap : (Z.of_nat (length (poolCh oneIdleOfOne)) <= poolCap oneIdleOfOne)%Z)
    by (vm_compute; intros H; discriminate H).
  split; [exact Hge |]. split; [exact Hq |].
  exact (acquire_release_rotates oneIdleOfOne 0 [] (Conn 0 false) Hge Hq Hk eq_refl Hcap).
Defined.

(** When the pool has reached its size and nothing is idle, [GetConn]
    blocks without dialing and leaves the state as it is; once a healthy
    connection is released, [GetConn] returns that very connection. *)
Theorem exhausted_pool_waits_for_release (s : Server) (c : ptr) (k : conn) :
  (poolSize s <= count s)%Z -> poolCh s = [] ->
  heap s !! c = Some k -> failing k = false -> (0 < poolCap s)%Z ->
  GetConn s = Parked s /\
  PutConn c s = Done tt (set_poolCh [c] s) /\
  GetConn (set_poolCh [c] s) = Done (inl c) (set_poolCh [] s).
Proof.
  intros Hge Hq Hk Hf Hcap. split; [apply GetConn_nothing_idle; auto |]. split.
  - unfold PutConn. rewrite chanSend_room by (rewrite Hq; simpl; lia).
    rewrite Hq. reflexivity.
  - apply (GetConn_healthy_head (set_poolCh [c] s) c [] k); auto.
Qed.

Lemma exhausted_pool_waits_for_release_witness :
  (poolSize (run [OpGetConn] (fresh dialAlways 1 quiet))
   <= count (run [OpGetConn] (fresh dialAlways 1 quiet)))%Z /\
  poolCh (run [OpGetConn] (fresh dialAlways 1 quiet)) = [] /\
  GetConn (run [OpGetConn] (fresh dialAlways 1 quiet))
  = Parked (run [OpGetConn] (fresh dialAlways 1 quiet)) /\
  PutConn 0 (run [OpGetConn] (fresh dialAlways 1 quiet))
  = Done tt (set_poolCh [0] (run [OpGetConn] (fresh dialAlways 1 quiet))) /\
  GetConn (set_poolCh [0] (run [OpGetConn] (fresh dialAlways 1 quiet)))
  = Done (inl 0) (set_poolCh [] (run [OpGetConn] (fresh dialAlways 1 quiet))).
Proof.
  assert (Hge : (poolSize (run [OpGetConn] (fresh dialAlways 1 quiet))
                 <= count (run [OpGetConn] (fresh dialAlways 1 quiet)))%Z)
    by (vm_compute; intros H; discriminate H).
  assert (Hq : poolCh (run [OpGetConn] (fresh dialAlways 1 quiet)) = [])
    by (vm_compute; reflexivity).
  assert (Hk : heap (run [OpGetConn] (fresh dialAlways 1 quiet)) !! 0 = Some (Conn 0 false))
    by (vm_compute; reflexivity).
  assert (Hcap : (0 < poolCap (run [OpGetConn] (fresh dialAlways 1 quiet)))%Z)
    by (vm_compute; reflexivity).
  split; [exact Hge |]. split; [exact Hq |].
  exact (exhausted_pool_waits_for_release _ 0 (Conn 0 false) Hge Hq Hk eq_refl Hcap).
Defined.

Lemma grow_trace (s s0 : Server) :
  inv s -> grow s = Done None s0 -> exists k : nat, grown s s0 k.
Proof.
  intros Hinv Hg. destruct (Z.ltb_spec (count s) (poolSize s)) as [Hlt | Hge].
  - rewrite (grow_growLoop s Hlt) in Hg.
    destruct (growLoop_trace _ 0 s None s0 ltac:(lia) Hinv Hg) as (k & Hgr & _).
    eauto.
  - rewrite (grow_at_size s Hge) in Hg. injection Hg as <-.
    exists 0. apply grown_zero; reflexivity.
Qed.

(** Checkout is exclusive: when the queue holds live pointers without
    repetition, the connection that [GetConn] grants is no longer in the
    queue, and what stays queued is still without repetition. *)
Theorem granted_connection_leaves_queue (s s1 : Server) (c : ptr) :
  inv s -> queue_live s -> NoDup (poolCh s) ->
  GetConn s = Done (inl c) s1 ->
  ~ In c (poolCh s1) /\ NoDup (poolCh s1).
Proof.
  intros Hinv Hlive Hnd. unfold GetConn.
  destruct (grow s) as [[e |] s0 | s0 | s0 | s0] eqn:Hg; simpl; try discriminate.
  intros Htake. destruct (grow_trace s s0 Hinv Hg) as (k & Hgr).
  destruct (takeConn_granted _ _ _ Htake) as (q & Hq & Hq1 & _).
  assert (Hnd0 : NoDup (poolCh s0)).
  { rewrite (gr_pool _ _ _ Hgr). apply NoDup_app. split; [exact Hnd |].
    split; [| apply NoDup_seq].
    intros x Hx Hseq. apply elem_of_seq in Hseq.
    unfold queue_live in Hlive. rewrite Forall_forall in Hlive.
    specialize (Hlive x Hx). simpl in Hlive. lia. }
  rewrite Hq in Hnd0. apply NoDup_cons in Hnd0. destruct Hnd0 as (Hnin & Hndq).
  rewrite Hq1. split; [| exact Hndq].
  intros Hin. apply Hnin. apply list_elem_of_In. exact Hin.
Qed.

Lemma granted_connection_leaves_queue_witness :
  inv (fresh dialAlways 4 quiet) /\ queue_live (fresh dialAlways 4 quiet) /\
  NoDup (poolCh (fresh dialAlways 4 quiet)) /\
  GetConn (fresh dialAlways 4 quiet)
  = Done (inl 0) (final (GetConn (fresh dialAlways 4 quiet))) /\
  ~ In 0 (poolCh (final (GetConn (fresh dialAlways 4 quiet)))) /\
  NoDup (poolCh (final (GetConn (fresh dialAlways 4 quiet)))).
Proof.
  assert (Hinv : inv (fresh dialAlways 4 quiet))
    by (constructor; vm_compute; try reflexivity; intros H; discriminate H).
  assert (Hlive : queue_live (fresh dialAlways 4 quiet)) by (vm_compute; constructor).
  assert (Hnd : NoDup (poolCh (fresh dialAlways 4 quiet))) by (vm_compute; constructor).
  assert (Hget : GetConn (fresh dialAlways 4 quiet)
                 = Done (inl 0) (final (GetConn (fresh dialAlways 4 quiet))))
    by (vm_compute; reflexivity).
  split; [exact Hinv |]. split; [exact Hlive |]. split; [exact Hnd |]. split; [exact Hget |].
  exact (granted_connection_leaves_queue _ _ 0 Hinv Hlive Hnd Hget).
Defined.

(** ** A pool that was just built *)

Lemma New_shape (f : nat -> netConn + error) (N : Z) (hc : option error) (a : Ambient)
  (s0 : Server) :
  NewFromSocketFactoryWithPoolSize f N hc a = Built s0 ->
  socketFactory s0 = f /\ poolCh s0 = [] /\ heap s0 = [] /\ dials s0 = 0 /\
  closeCh s0 = false /\ healthCheck s0 = false /\ hc = None /\ (0 <= N)%Z.
Proof.
  unfold NewFromSocketFactoryWithPoolSize.
  destruct (Z.ltb_spec N 0); [discriminate |].
  destruct hc; [discriminate |]. intros [= <-]. simpl. repeat split; auto.
Qed.

(** The first [GetConn] on a pool that has made no connection yet. *)
Lemma empty_pool_first_GetConn (s : Server) :
  inv s -> poolCap s = poolSize s -> count s = 0%Z -> poolCh s = [] -> heap s = [] ->
  (0 < poolSize s)%Z -> always_connects (socketFactory s) ->
  exists s1 : Server,
    GetConn s = Done (inl 0) s1 /\
    count s1 = ((poolSize s + 1) / 2)%Z /\
    Z.of_nat (dials s1) = (Z.of_nat (dials s) + (poolSize s + 1) / 2)%Z /\
    Z.of_nat (length (heap s1)) = ((poolSize s + 1) / 2)%Z /\
    poolCh s1 = seq 1 (Z.to_nat ((poolSize s + 1) / 2) - 1).
Proof.
  intros Hinv Hcap Hcount Hq Hh Hpos Hall.
  destruct (grow_returns s Hinv Hcap) as (s' & k & Hgrow & Hgr & Hdk);
    [rewrite Hq, Hcount; simpl; lia | exact Hall |].
  destruct (growth_amount s s' Hinv ltac:(lia) Hgrow) as (Hamount & _).
  destruct Hgr as [Gc Gp (new & Gh & Gn & Gnew) _ _ _ _ _ _].
  rewrite Hcount in Hamount. rewrite Hcount in Gc.
  replace (poolSize s - 0 + 1)%Z with (poolSize s + 1)%Z in Hamount by lia.
  assert (Hhalf : (1 <= (poolSize s + 1) / 2)%Z) by (apply Z.div_le_lower_bound; lia).
  assert (Hk : 0 < k) by lia.
  destruct (Gnew 0 Hk) as (sock & _ & Hnew0).
  rewrite Hq, Hh in Gp. rewrite Hh in Gh. simpl in Gp, Gh.
  destruct k as [| k']; [lia |]. simpl in Gp.
  exists (set_poolCh (seq 1 k') s'). split.
  - unfold GetConn. rewrite Hgrow. simpl. unfold takeConn, chanRecv. rewrite Gp. simpl.
    unfold ptr. rewrite Gh, Hnew0. reflexivity.
  - simpl. rewrite Gh, Gn, Hdk.
    replace (Z.to_nat ((poolSize s + 1) / 2) - 1) with k' by lia.
    repeat split; lia.
Qed.

(** Connections are made lazily, and the first [GetConn] makes half of
    them: on a pool built with size [N >= 1] whose factory connects, no
    call of the factory is made before the first [GetConn]; that call
    makes [(N + 1) / 2] connections, hands out the first one and leaves
    the others idle in the order of their creation. *)
Theorem first_GetConn_on_new_pool
  (f : nat -> netConn + error) (N : Z) (hc : option error) (a : Ambient) (s0 : Server) :
  (0 < N < 2 ^ 63)%Z -> always_connects f ->
  NewFromSocketFactoryWithPoolSize f N hc a = Built s0 ->
  dials s0 = 0 /\ count s0 = 0%Z /\
  exists s1 : Server,
    GetConn s0 = Done (inl 0) s1 /\
    count s1 = ((N + 1) / 2)%Z /\
    Z.of_nat (dials s1) = ((N + 1) / 2)%Z /\
    Z.of_nat (length (heap s1)) = ((N + 1) / 2)%Z /\
    poolCh s1 = seq 1 (Z.to_nat ((N + 1) / 2) - 1).
Proof.
  intros [Hpos HN] Hall Hnew.
  destruct (New_inv f N hc a s0 HN Hnew) as (Hinv & Hsize & Hcap & Hcount & _).
  destruct (New_shape f N hc a s0 Hnew) as (Hf & Hq & Hh & Hd & _).
  split; [exact Hd |]. split; [exact Hcount |].
  destruct (empty_pool_first_GetConn s0 Hinv) as (s1 & Hget & Hc & Hdials & Hheap & Hpool);
    try assumption; try congruence.
  - rewrite Hf. exact Hall.
  - rewrite Hsize, Hd in *. exists s1. repeat split; auto.
Qed.

Lemma first_GetConn_on_new_pool_witness :
  (0 < 5 < 2 ^ 63)%Z /\ always_connects dialAlways /\
  NewFromSocketFactoryWithPoolSize dialAlways 5 None quiet = Built (fresh dialAlways 5 quiet) /\
  exists s1 : Server,
    GetConn (fresh dialAlways 5 quiet) = Done (inl 0) s1 /\
    count s1 = ((5 + 1) / 2)%Z /\
    Z.of_nat (dials s1) = ((5 + 1) / 2)%Z /\
    Z.of_nat (length (heap s1)) = ((5 + 1) / 2)%Z /\
    poolCh s1 = seq 1 (Z.to_nat ((5 + 1) / 2) - 1).
Proof.
  assert (Hall : always_connects dialAlways) by (intros j; exists j; reflexivity).
  split; [split; reflexivity |]. split; [exact Hall |]. split; [reflexivity |].
  destruct (first_GetConn_on_new_pool dialAlways 5 None quiet (fresh dialAlways 5 quiet))
    as (_ & _ & Hget); [split; reflexivity | exact Hall | reflexivity | exact Hget].
Defined.

(** The default constructors build a pool of eight: [NewFromSocketFactory],
    and [New] and [NewWithTimeout] with the dialer as factory, always
    succeed when the Health-Check Service starts, and with a factory that
    connects the first [GetConn] on their pool makes four connections. *)
Theorem default_pool_holds_four_after_first_GetConn
  (f : nat -> netConn + error) (a : Ambient) :
  always_connects f ->
  exists s0 s1 : Server,
    NewFromSocketFactory f None a = Built s0 /\
    (forall (dial : Dialer) (addr : string),
        dial "tcp"%string addr = f -> New dial addr None a = Built s0) /\
    (forall (dial : TimeoutDialer) (addr : string) (timeout : Z),
        dial "tcp"%string addr timeout = f -> NewWithTimeout dial addr timeout None a = Built s0) /\
    poolSize s0 = 8%Z /\ poolCap s0 = 8%Z /\
    GetConn s0 = Done (inl 0) s1 /\ count s1 = 4%Z /\ dials s1 = 4 /\
    poolCh s1 = [1; 2; 3].
Proof.
  intros Hall.
  assert (Hnew : NewFromSocketFactoryWithPoolSize f 8 None a = Built (fresh f 8 a))
    by reflexivity.
  destruct (New_inv f 8 None a (fresh f 8 a) ltac:(reflexivity) Hnew) as (Hinv & _).
  destruct (empty_pool_first_GetConn (fresh f 8 a) Hinv)
    as (s1 & Hget & Hc & Hd & _ & Hq);
    [reflexivity | reflexivity | reflexivity | reflexivity | reflexivity | exact Hall |].
  change ((poolSize (fresh f 8 a) + 1) / 2)%Z with 4%Z in *.
  change (Z.of_nat (dials (fresh f 8 a))) with 0%Z in Hd.
  exists (fresh f 8 a), s1.
  split; [reflexivity |].
  split; [intros dial addr <-; reflexivity |].
  split; [intros dial addr timeout <-; reflexivity |].
  split; [reflexivity |]. split; [reflexivity |].
  split; [exact Hget |].
  split; [exact Hc |]. split; [lia | exact Hq].
Qed.

Lemma default_pool_holds_four_after_first_GetConn_witness :
  always_connects dialAlways /\
  exists s0 s1 : Server,
    NewFromSocketFactory dialAlways None quiet = Built s0 /\
    poolSize s0 = 8%Z /\ GetConn s0 = Done (inl 0) s1 /\ count s1 = 4%Z /\ dials s1 = 4.
Proof.
  assert (Hall : always_connects dialAlways) by (intros j; exists j; reflexivity).
  split; [exact Hall |].
  destruct (default_pool_holds_four_after_first_GetConn dialAlways quiet Hall)
    as (s0 & s1 & Hn & _ & _ & Hs & _ & Hg & Hc & Hd & _).
  exists s0, s1. split; [exact Hn |]. split; [exact Hs |]. split; [exact Hg |].
  split; [exact Hc | exact Hd].
Defined.

(** A pool of size zero never hands out a connection: after any history
    on it the queue is empty and the count is zero, [GetConn] blocks on
    the empty channel without dialing, and [PutConn] blocks too. *)
Theorem pool_of_size_zero_serves_nothing
  (f : nat -> netConn + error) (hc : option error) (a : Ambient) (s0 : Server)
  (ops : list op) (c : ptr) :
  NewFromSocketFactoryWithPoolSize f 0 hc a = Built s0 ->
  poolCh (run ops s0) = [] /\ count (run ops s0) = 0%Z /\
  GetConn (run ops s0) = Parked (run ops s0) /\
  PutConn c (run ops s0) = Parked (run ops s0).
Proof.
  intros Hnew.
  destruct (New_inv f 0 hc a s0 ltac:(reflexivity) Hnew) as (Hinv & Hsize & Hcap & _).
  pose proof (run_evolves ops s0) as Hev.
  pose proof (ev_inv _ _ Hev Hinv) as [Hlo Hhi _ _ Hch].
  rewrite (ev_size _ _ Hev), Hsize in Hhi. rewrite (ev_cap _ _ Hev), Hcap in Hch.
  assert (Hq : poolCh (run ops s0) = []).
  { destruct (poolCh (run ops s0)); [reflexivity | simpl in Hch; lia]. }
  split; [exact Hq |]. split; [lia |]. split.
  - apply GetConn_nothing_idle; [rewrite (ev_size _ _ Hev), Hsize; lia | exact Hq].
  - unfold PutConn, chanSend. rewrite Hq, (ev_cap _ _ Hev), Hcap. reflexivity.
Qed.

Lemma pool_of_size_zero_serves_nothing_witness :
  NewFromSocketFactoryWithPoolSize dialAlways 0 None quiet = Built (fresh dialAlways 0 quiet) /\
  poolCh (run sampleHistory (fresh dialAlways 0 quiet)) = [] /\
  count (run sampleHistory (fresh dialAlways 0 quiet)) = 0%Z /\
  GetConn (run sampleHistory (fresh dialAlways 0 quiet))
  = Parked (run sampleHistory (fresh dialAlways 0 quiet)) /\
  PutConn 0 (run sampleHistory (fresh dialAlways 0 quiet))
  = Parked (run sampleHistory (fresh dialAlways 0 quiet)).
Proof.
  split; [reflexivity |].
  exact (pool_of_size_zero_serves_nothing dialAlways None quiet (fresh dialAlways 0 quiet)
           sampleHistory 0 eq_refl).
Defined.

(** ** Reconfiguration and errors of the factory *)

(** A factory and an error hook installed with [UpdateSockFactory] and
    [UpdateSockErrorHandler] are the ones the next [GetConn] uses: when
    the new factory fails at the first dial of the growth, [GetConn]
    returns its error, the hook is called with that error exactly when
    one is installed, and the count stays. *)
Theorem reconfiguration_is_used_by_next_GetConn
  (s : Server) (f : nat -> netConn + error) (h : bool) (e : error) :
  inv s -> (count s < poolSize s)%Z -> f (dials s) = inr e ->
  exists s' : Server,
    GetConn (UpdateSockErrorHandler h (UpdateSockFactory f s)) = Done (inr e) s' /\
    hookLog s' = (if h then hookLog s ++ [e] else hookLog s) /\
    count s' = count s /\ dials s' = S (dials s) /\
    socketFactory s' = f /\ SocketErrorHook s' = h.
Proof.
  intros Hinv Hlt Hf.
  assert (Hinv' : inv (UpdateSockErrorHandler h (UpdateSockFactory f s))).
  { destruct Hinv. constructor; simpl; auto. }
  eexists. split.
  - apply GetConn_first_dial_fails; [exact Hinv' | exact Hlt | exact Hf].
  - unfold callSockFactory. simpl. rewrite Hf. destruct h; simpl; repeat split.
Qed.

Lemma reconfiguration_is_used_by_next_GetConn_witness :
  inv (oneIdleOfTwo dialAlways) /\
  (count (oneIdleOfTwo dialAlways) < poolSize (oneIdleOfTwo dialAlways))%Z /\
  exists s' : Server,
    GetConn (UpdateSockErrorHandler true (UpdateSockFactory dialNever (oneIdleOfTwo dialAlways)))
    = Done (inr (Errno 1)) s' /\
    hookLog s' = hookLog (oneIdleOfTwo dialAlways) ++ [Errno 1] /\
    count s' = count (oneIdleOfTwo dialAlways) /\
    dials s' = S (dials (oneIdleOfTwo dialAlways)) /\
    socketFactory s' = dialNever /\ SocketErrorHook s' = true.
Proof.
  assert (Hinv : inv (oneIdleOfTwo dialAlways))
    by (constructor; vm_compute; try reflexivity; intros H; discriminate H).
  assert (Hlt : (count (oneIdleOfTwo dialAlways) < poolSize (oneIdleOfTwo dialAlways))%Z)
    by (vm_compute; reflexivity).
  split; [exact Hinv |]. split; [exact Hlt |].
  exact (reconfiguration_is_used_by_next_GetConn (oneIdleOfTwo dialAlways) dialNever true
           (Errno 1) Hinv Hlt eq_refl).
Defined.

(** When the pool is below its size and the factory fails, no detection
    call reaches the peer: each returns the error of the factory,
    [DetectResponseInCtx] and [Detect] wrapped by [misc.ErrorWrap] and
    the three others as it is, and the queue and the count stay. *)
Theorem detection_fails_before_any_exchange (s : Server) (e : error) (p : Payload) :
  inv s -> (count s < poolSize s)%Z -> socketFactory s (dials s) = inr e ->
  DetectRequestInCtx p s = Done (None, Some e) (snd (callSockFactory s)) /\
  DetectResponseInCtx p s
  = Done (None, Some (ErrorWrap e EmptyString)) (snd (callSockFactory s)) /\
  Detect p s
  = Done (None, None, Some (ErrorWrap e EmptyString)) (snd (callSockFactory s)) /\
  DetectHttpRequest p s = Done (None, Some e) (snd (callSockFactory s)) /\
  DetectRequest p s = Done (None, Some e) (snd (callSockFactory s)) /\
  ios (snd (callSockFactory s)) = ios s /\
  poolCh (snd (callSockFactory s)) = poolCh s /\
  count (snd (callSockFactory s)) = count s.
Proof.
  intros Hinv Hlt Hf.
  pose proof (GetConn_first_dial_fails s e Hinv Hlt Hf) as Hget.
  unfold DetectRequestInCtx, DetectResponseInCtx, Detect, DetectHttpRequest, DetectRequest.
  rewrite Hget. simpl.
  pose proof (callSockFactory_frame s) as Hfr. simpl in Hfr.
  destruct Hfr as (_ & _ & Hc & _ & _ & Hq & _ & _ & _ & _ & _ & _ & Hi).
  repeat split; auto.
Qed.

Lemma detection_fails_before_any_exchange_witness :
  inv (fresh dialNever 3 quiet) /\
  (count (fresh dialNever 3 quiet) < poolSize (fresh dialNever 3 quiet))%Z /\
  DetectRequestInCtx 7 (fresh dialNever 3 quiet)
  = Done (None, Some (Errno 1)) (snd (callSockFactory (fresh dialNever 3 quiet))) /\
  DetectResponseInCtx 7 (fresh dialNever 3 quiet)
  = Done (None, Some (ErrorWrap (Errno 1) EmptyString))
      (snd (callSockFactory (fresh dialNever 3 quiet))).
Proof.
  assert (Hinv : inv (fresh dialNever 3 quiet))
    by (constructor; vm_compute; try reflexivity; intros H; discriminate H).
  assert (Hlt : (count (fresh dialNever 3 quiet) < poolSize (fresh dialNever 3 quiet))%Z)
    by reflexivity.
  split; [exact Hinv |]. split; [exact Hlt |].
  destruct (detection_fails_before_any_exchange (fresh dialNever 3 quiet) (Errno 1) 7
              Hinv Hlt eq_refl) as (H1 & H2 & _).
  split; [exact H1 | exact H2].
Defined.

(** A failed two-way [Detect] costs the pool a connection for good: when
    the pool has reached its size and [Detect] takes its last idle
    connection, an error of the exchange leaves the queue empty with the
    count unchanged, so nothing is created in its place and the next
    [GetConn] blocks. *)
Theorem failed_Detect_starves_the_pool
  (s : Server) (c : ptr) (k : conn) (p : Payload) (e : error) :
  (poolSize s <= count s)%Z -> poolCh s = [c] ->
  heap s !! c = Some k -> failing k = false ->
  replyErr (remote (amb s) (ios s) p) = Some e ->
  exists s2 : Server,
    Detect p s = Done (replyReq (remote (amb s) (ios s) p),
                       replyRsp (remote (amb s) (ios s) p), Some e) s2 /\
    poolCh s2 = [] /\ count s2 = count s /\ dials s2 = dials s /\
    GetConn s2 = Parked s2.
Proof.
  intros Hge Hq Hk Hf He.
  unfold Detect. rewrite (GetConn_healthy_head s c [] k Hge Hq Hk Hf). simpl.
  unfold conn_Detect, conn_exchange. simpl. rewrite Hk. simpl.
  repeat (rewrite He; simpl).
  eexists. split; [reflexivity |]. simpl. repeat split.
  apply GetConn_nothing_idle; simpl; auto.
Qed.

Lemma failed_Detect_starves_the_pool_witness :
  (poolSize oneIdleOnDeafPeer
   <= count oneIdleOnDeafPeer)%Z /\
  poolCh oneIdleOnDeafPeer = [0] /\
  exists s2 : Server,
    Detect 3 oneIdleOnDeafPeer
    = Done (None, None, Some (Errno 7)) s2 /\
    poolCh s2 = [] /\
    count s2 = count oneIdleOnDeafPeer /\
    dials s2 = dials oneIdleOnDeafPeer /\
    GetConn s2 = Parked s2.
Proof.
  assert (Hge : (poolSize oneIdleOnDeafPeer
                 <= count oneIdleOnDeafPeer)%Z)
    by (vm_compute; intros H; discriminate H).
  assert (Hq : poolCh oneIdleOnDeafPeer = [0])
    by (vm_compute; reflexivity).
  assert (Hk : heap oneIdleOnDeafPeer !! 0
               = Some (Conn 0 false)) by (vm_compute; reflexivity).
  split; [exact Hge |]. split; [exact Hq |].
  exact (failed_Detect_starves_the_pool _ 0 (Conn 0 false) 3 (Errno 7) Hge Hq Hk
           eq_refl eq_refl).
Defined.

(** ** The heartbeat loop *)

Lemma heartbeatLoop_nothing_idle (interval : Z) (fuel n : nat) (rest : list wake) :
  forall s : Server,
  (0 < n -> poolCh s = []) ->
  exists s' : Server,
    heartbeatLoop interval fuel (repeat TimerFired n ++ CloseSeen :: rest) s = Done tt s' /\
    timers s' = timers s ++ repeat (wrap64 (interval * 1000000000)) (S n) /\
    ios s' = ios s /\ poolCh s' = poolCh s /\ heap s' = heap s /\ getenvs s' = getenvs s.
Proof.
  induction n as [| n IH]; intros s Hq; simpl.
  - eexists. split; [reflexivity |]. simpl. repeat split.
  - specialize (Hq ltac:(lia)).
    assert (Hsweep : broadcastHeartbeat fuel (NewTimer interval s)
                     = Done tt (NewTimer interval s)).
    { destruct fuel; simpl; rewrite Hq; reflexivity. }
    rewrite Hsweep. simpl.
    destruct (IH (NewTimer interval s)) as (s' & Hrun & Ht & Hi & Hq' & Hh & Hg);
      [intros _; exact Hq |].
    exists s'. split; [exact Hrun |]. simpl in *.
    rewrite Ht, <- app_assoc. repeat split; auto.
Qed.

(** While nothing is idle the heartbeat loop only keeps time: woken [n]
    times by its timer and then by the close channel, it returns having
    made [n + 1] timers of the configured interval and read the
    environment once, without an exchange with the peer; the wake-up by
    the close channel is not followed by a sweep, idle connections or
    not. *)
Theorem heartbeat_loop_keeps_time (fuel n : nat) (rest : list wake) (s : Server) :
  (0 < n -> poolCh s = []) ->
  exists s' : Server,
    runHeartbeatCo fuel (repeat TimerFired n ++ CloseSeen :: rest) s = Done tt s' /\
    timers s' = timers s
                ++ repeat (wrap64 (fst (heartbeatInterval s) * 1000000000)) (S n) /\
    getenvs s' = S (getenvs s) /\
    ios s' = ios s /\ poolCh s' = poolCh s /\ heap s' = heap s.
Proof.
  intros Hq. unfold runHeartbeatCo.
  assert (Hs : snd (heartbeatInterval s) = set_getenvs (S (getenvs s)) s).
  { unfold heartbeatInterval, Getenv.
    destruct (negb _); [destruct (Atoi _) |]; reflexivity. }
  destruct (heartbeatInterval s) as [interval s1]. simpl in *. subst s1.
  destruct (heartbeatLoop_nothing_idle interval fuel n rest (set_getenvs (S (getenvs s)) s))
    as (s' & Hrun & Ht & Hi & Hq' & Hh & Hg); [exact Hq |].
  exists s'. split; [exact Hrun |]. simpl in *. repeat split; auto.
Qed.

Lemma heartbeat_loop_keeps_time_witness :
  (0 < 2 -> poolCh (fresh dialAlways 2 quiet) = []) /\
  exists s' : Server,
    runHeartbeatCo 9 (repeat TimerFired 2 ++ CloseSeen :: [TimerFired]) (fresh dialAlways 2 quiet)
    = Done tt s' /\
    timers s' = timers (fresh dialAlways 2 quiet)
                ++ repeat (wrap64 (fst (heartbeatInterval (fresh dialAlways 2 quiet))
                                   * 1000000000)) 3 /\
    getenvs s' = 1 /\ ios s' = 0.
Proof.
  assert (Hq : 0 < 2 -> poolCh (fresh dialAlways 2 quiet) = []) by (intros _; reflexivity).
  split; [exact Hq |].
  destruct (heartbeat_loop_keeps_time 9 2 [TimerFired] (fresh dialAlways 2 quiet) Hq)
    as (s' & Hrun & Ht & Hg & Hi & _).
  exists s'. split; [exact Hrun |]. split; [exact Ht |]. split; [exact Hg | exact Hi].
Defined.

(** The duration of the timer is the interval in seconds exactly for
    intervals between -9223372036 and 9223372036; outside of these the
    product with [time.Second] overflows [int64] and the timer gets
    another duration. *)
Theorem timer_duration_exact_iff_no_overflow (n : Z) (s : Server) :
  timers (NewTimer n s) = timers s ++ [(n * 1000000000)%Z]
  <-> (-9223372036 <= n <= 9223372036)%Z.
Proof.
  unfold NewTimer. simpl. split.
  - intros Heq. apply app_inv_head in Heq. injection Heq as Heq.
    pose proof (wrap64_range (n * 1000000000)) as Hr. rewrite Heq in Hr.
    unfold int64_range in Hr. lia.
  - intros Hn. rewrite wrap64_id by (unfold int64_range; lia). reflexivity.
Qed.

(** ** Shutdown of a pool at its size *)

Lemma closeLoop_at_size (q : list ptr) : forall (fuel : nat) (i : Z) (s : Server),
  (poolSize s <= count s)%Z -> (count s < 2 ^ 63)%Z -> (0 <= i)%Z ->
  poolCh s = q -> Z.of_nat (length q) = (count s - i)%Z ->
  (forall c, In c q -> exists k, heap s !! c = Some k /\ failing k = false) ->
  length q <= fuel ->
  closeLoop fuel i s
  = Done tt (set_healthCheck true
               (set_closedSocks (closedSocks s ++ socketsOf (heap s) q) (set_poolCh [] s))).
Proof.
  induction q as [| c q IH]; intros fuel i s Hge Hhi Hi Hq Hlen Hok Hfuel.
  - simpl in Hlen.
    assert (Hend : closeLoop fuel i s = Done tt (HealthCheckService_Close s)).
    { destruct fuel; simpl; destruct (Z.ltb_spec i (count s)); (lia || reflexivity). }
    rewrite Hend. unfold HealthCheckService_Close. simpl. rewrite app_nil_r.
    destruct s; simpl in *. subst. reflexivity.
  - destruct fuel as [| fuel]; [simpl in Hfuel; lia |].
    simpl in Hlen, Hfuel. simpl closeLoop.
    destruct (Z.ltb_spec i (count s)); [| lia].
    destruct (Hok c (or_introl eq_refl)) as (k & Hk & Hf).
    rewrite (GetConn_healthy_head s c q k Hge Hq Hk Hf). simpl.
    unfold conn_Close. simpl. rewrite Hk. simpl.
    rewrite wrap64_id by (unfold int64_range; lia).
    rewrite IH; simpl; auto; try lia.
    + unfold socketsOf. simpl. rewrite <- app_assoc. reflexivity.
    + intros c' Hin. apply Hok. right. exact Hin.
Qed.

(** [Close] on a pool that has reached its size with every connection
    idle and healthy: it returns after closing the transports of the
    idle connections in queue order, once each, and then the
    Health-Check Service; it dials nothing, leaves the count as it was
    and the queue empty, so a later [GetConn] blocks instead of
    returning an error. *)
Theorem Close_drains_pool_at_size (s : Server) :
  inv s -> closeCh s = false -> count s = poolSize s -> idle_healthy s ->
  exists s' : Server,
    Close s = Done tt s' /\
    closedSocks s' = closedSocks s ++ socketsOf (heap s) (poolCh s) /\
    poolCh s' = [] /\ count s' = count s /\ dials s' = dials s /\ heap s' = heap s /\
    closeCh s' = true /\ healthCheck s' = true /\
    GetConn s' = Parked s'.
Proof.
  intros [Hlo Hhi Hsz Hhp Hch] Hopen Hfull [Icap Iall Iok _].
  unfold Close. rewrite Hopen.
  rewrite (closeLoop_at_size (poolCh s)); simpl; auto; try lia.
  eexists. split; [reflexivity |]. simpl. repeat split; auto.
  apply GetConn_nothing_idle; simpl; auto. lia.
Qed.

Lemma Close_drains_pool_at_size_witness :
  inv twoIdleOfTwo /\ closeCh twoIdleOfTwo = false /\
  count twoIdleOfTwo = poolSize twoIdleOfTwo /\ idle_healthy twoIdleOfTwo /\
  exists s' : Server,
    Close twoIdleOfTwo = Done tt s' /\
    closedSocks s' = closedSocks twoIdleOfTwo
                     ++ socketsOf (heap twoIdleOfTwo) (poolCh twoIdleOfTwo) /\
    poolCh s' = [] /\ count s' = count twoIdleOfTwo /\ dials s' = dials twoIdleOfTwo /\
    heap s' = heap twoIdleOfTwo /\ closeCh s' = true /\ healthCheck s' = true /\
    GetConn s' = Parked s'.
Proof.
  assert (Hinv : inv twoIdleOfTwo)
    by (constructor; vm_compute; try reflexivity; intros H; discriminate H).
  assert (Hopen : closeCh twoIdleOfTwo = false) by (vm_compute; reflexivity).
  assert (Hfull : count twoIdleOfTwo = poolSize twoIdleOfTwo) by (vm_compute; reflexivity).
  assert (Hq : poolCh twoIdleOfTwo = [1; 0]) by (vm_compute; reflexivity).
  assert (Hh : heap twoIdleOfTwo = [Conn 0 false; Conn 1 false]) by (vm_compute; reflexivity).
  assert (Hidle : idle_healthy twoIdleOfTwo).
  { constructor.
    - vm_compute. reflexivity.
    - vm_compute. reflexivity.
    - intros c Hin. rewrite Hq in Hin. rewrite Hh.
      destruct Hin as [<- | [<- | []]]; eexists; split; reflexivity.
    - intros c k Hk. rewrite Hq. rewrite Hh in Hk.
      destruct c as [| [| c]]; [right; left; reflexivity | left; reflexivity |].
      discriminate Hk. }
  split; [exact Hinv |]. split; [exact Hopen |]. split; [exact Hfull |].
  split; [exact Hidle |].
  exact (Close_drains_pool_at_size twoIdleOfTwo Hinv Hopen Hfull Hidle).
Defined.

(** ** Misuse and configuration *)

(** Nothing guards against a double release: when a healthy connection
    is released twice into a pool with room for it, the next two
    [GetConn] calls both return it, so two callers hold the same
    connection. *)
Theorem double_release_grants_twice (s : Server) (c : ptr) (k : conn) :
  (poolSize s <= count s)%Z -> poolCh s = [] ->
  heap s !! c = Some k -> failing k = false -> (2 <= poolCap s)%Z ->
  PutConn c s = Done tt (set_poolCh [c] s) /\
  PutConn c (set_poolCh [c] s) = Done tt (set_poolCh [c; c] s) /\
  GetConn (set_poolCh [c; c] s) = Done (inl c) (set_poolCh [c] s) /\
  GetConn (set_poolCh [c] s) = Done (inl c) (set_poolCh [] s).
Proof.
  intros Hge Hq Hk Hf Hcap. unfold PutConn.
  split; [rewrite chanSend_room by (rewrite Hq; simpl; lia); rewrite Hq; reflexivity |].
  split; [rewrite chanSend_room by (simpl; lia); reflexivity |].
  split.
  - apply (GetConn_healthy_head (set_poolCh [c; c] s) c [c] k); auto.
  - apply (GetConn_healthy_head (set_poolCh [c] s) c [] k); auto.
Qed.

Lemma double_release_grants_twice_witness :
  (poolSize (run [OpGetConn; OpGetConn] (fresh dialAlways 2 quiet))
   <= count (run [OpGetConn; OpGetConn] (fresh dialAlways 2 quiet)))%Z /\
  poolCh (run [OpGetConn; OpGetConn] (fresh dialAlways 2 quiet)) = [] /\
  GetConn (set_poolCh [0; 0] (run [OpGetConn; OpGetConn] (fresh dialAlways 2 quiet)))
  = Done (inl 0) (set_poolCh [0] (run [OpGetConn; OpGetConn] (fresh dialAlways 2 quiet))) /\
  GetConn (set_poolCh [0] (run [OpGetConn; OpGetConn] (fresh dialAlways 2 quiet)))
  = Done (inl 0) (set_poolCh [] (run [OpGetConn; OpGetConn] (fresh dialAlways 2 quiet))).
Proof.
  assert (Hge : (poolSize (run [OpGetConn; OpGetConn] (fresh dialAlways 2 quiet))
                 <= count (run [OpGetConn; OpGetConn] (fresh dialAlways 2 quiet)))%Z)
    by (vm_compute; intros H; discriminate H).
  assert (Hq : poolCh (run [OpGetConn; OpGetConn] (fresh dialAlways 2 quiet)) = [])
    by (vm_compute; reflexivity).
  assert (Hk : heap (run [OpGetConn; OpGetConn] (fresh dialAlways 2 quiet)) !! 0
               = Some (Conn 0 false)) by (vm_compute; reflexivity).
  assert (Hcap : (2 <= poolCap (run [OpGetConn; OpGetConn] (fresh dialAlways 2 quiet)))%Z)
    by (vm_compute; intros H; discriminate H).
  split; [exact Hge |]. split; [exact Hq |].
  destruct (double_release_grants_twice _ 0 (Conn 0 false) Hge Hq Hk eq_refl Hcap)
    as (_ & _ & H1 & H2).
  split; [exact H1 | exact H2].
Defined.

Lemma takeConn_count (s : Server) : count (final (takeConn s)) = count s.
Proof.
  apply (takeConn_frame (fun s s' => count s' = count s)); intros; simpl; congruence.
Qed.

(** Every [GetConn] creates half of the missing connections, rounded up,
    whatever it then returns: with a factory that connects and room in
    the channel, the distance between count and pool size after the call
    is half of the distance before, rounded down. *)
Theorem growth_halves_the_shortfall (s : Server) :
  inv s -> poolCap s = poolSize s ->
  (Z.of_nat (length (poolCh s)) <= count s)%Z ->
  always_connects (socketFactory s) ->
  (poolSize (final (GetConn s)) - count (final (GetConn s))
   = (poolSize s - count s) / 2)%Z.
Proof.
  intros Hinv Hcap Hlen Hall.
  destruct (grow_returns s Hinv Hcap Hlen Hall) as (s0 & k & Hgrow & Hgr & _).
  pose proof (ev_size _ _ (GetConn_evolves s)) as Hsize. rewrite Hsize.
  unfold GetConn. rewrite Hgrow. simpl. rewrite takeConn_count.
  pose proof Hinv as [Hlo Hhi Hsz _ _].
  destruct (Z.ltb_spec (count s) (poolSize s)) as [Hlt | Hge].
  - destruct (growth_amount s s0 Hinv Hlt Hgrow) as (Hc & _). rewrite Hc.
    pose proof (Z.div_mod (poolSize s - count s + 1) 2 ltac:(lia)).
    pose proof (Z.mod_pos_bound (poolSize s - count s + 1) 2 ltac:(lia)).
    pose proof (Z.div_mod (poolSize s - count s) 2 ltac:(lia)).
    pose proof (Z.mod_pos_bound (poolSize s - count s) 2 ltac:(lia)).
    lia.
  - rewrite (grow_at_size s Hge) in Hgrow. injection Hgrow as <-.
    replace (poolSize s - count s)%Z with 0%Z by lia. reflexivity.
Qed.

Lemma growth_halves_the_shortfall_witness :
  inv (fresh dialAlways 7 quiet) /\
  poolCap (fresh dialAlways 7 quiet) = poolSize (fresh dialAlways 7 quiet) /\
  (Z.of_nat (length (poolCh (fresh dialAlways 7 quiet))) <= count (fresh dialAlways 7 quiet))%Z /\
  always_connects (socketFactory (fresh dialAlways 7 quiet)) /\
  (poolSize (final (GetConn (fresh dialAlways 7 quiet)))
   - count (final (GetConn (fresh dialAlways 7 quiet)))
   = (poolSize (fresh dialAlways 7 quiet) - count (fresh dialAlways 7 quiet)) / 2)%Z.
Proof.
  assert (Hinv : inv (fresh dialAlways 7 quiet))
    by (constructor; vm_compute; try reflexivity; intros H; discriminate H).
  assert (Hcap : poolCap (fresh dialAlways 7 quiet) = poolSize (fresh dialAlways 7 quiet))
    by reflexivity.
  assert (Hlen : (Z.of_nat (length (poolCh (fresh dialAlways 7 quiet)))
                  <= count (fresh dialAlways 7 quiet))%Z)
    by (vm_compute; intros H; discriminate H).
  assert (Hall : always_connects (socketFactory (fresh dialAlways 7 quiet)))
    by (intros j; exists j; reflexivity).
  split; [exact Hinv |]. split; [exact Hcap |]. split; [exact Hlen |]. split; [exact Hall |].
  exact (growth_halves_the_shortfall (fresh dialAlways 7 quiet) Hinv Hcap Hlen Hall).
Defined.

(** Using the pool never reconfigures it: over any history of [GetConn],
    [PutConn], uses of a connection, detection calls and sweeps, the
    socket factory, the error hook, the pool size, the capacity of the
    channel, the close channel and the Health-Check Service are as they
    were. *)
Theorem pool_use_leaves_configuration (ops : list op) : forall s : Server,
  Forall is_pool_op ops -> untouched s (run ops s).
Proof.
  induction ops as [| o ops IH]; intros s Hops; simpl.
  - apply untouched_refl.
  - apply Forall_cons in Hops. destruct Hops as (Ho & Hops).
    eapply untouched_trans; [| apply IH; exact Hops].
    pose proof (pool_op_untouched o s) as Hu.
    destruct o; simpl in Ho; try contradiction; exact Hu.
Qed.

Lemma pool_use_leaves_configuration_witness :
  Forall is_pool_op [OpGetConn; OpPutConn 0; OpDetect 5; OpSweep 3; OpGetConn] /\
  untouched (fresh dialOnce 3 deaf)
    (run [OpGetConn; OpPutConn 0; OpDetect 5; OpSweep 3; OpGetConn] (fresh dialOnce 3 deaf)).
Proof.
  assert (Hops : Forall is_pool_op [OpGetConn; OpPutConn 0; OpDetect 5; OpSweep 3; OpGetConn])
    by (repeat constructor).
  split; [exact Hops |].
  exact (pool_use_leaves_configuration _ (fresh dialOnce 3 deaf) Hops).
Defined.
